(** * The CRIPT Python SDK node graph: a shallow embedding

    Source files embedded here:
    - [src/cript/nodes/core.py]                      ([BaseNode])
    - [src/cript/nodes/subobjects/algorithm.py]      ([Algorithm])
    - [src/cript/nodes/subobjects/software_configuration.py]
    - [src/cript/api/exceptions.py]                  ([CRIPTConnectionError])

    Python objects live in a store and are named by their address; two
    nodes are the same object exactly when their addresses are equal,
    whatever their contents. *)

From Stdlib Require Import ZArith String Ascii Lia Bool.
From stdpp Require Import base option list relations sets.

Set Warnings "-register-all".

Local Open Scope string_scope.
Local Open Scope list_scope.
Local Open Scope Z_scope.

(** ** Exceptions and results *)

(** A node instance is named by its address in the store. *)
Definition addr := nat.

(** The exceptions the embedded code raises or lets through. *)
Inductive exn : Type :=
| CRIPTNodeSchemaError (detail : string)
| CRIPTNodeCycleError (node : addr)
| CRIPTJsonSerializationError
| CRIPTAPIAccessError
| IndexError
| AttributeError (name : string)
| TypeError (name : string).

Inductive result (A : Type) : Type :=
| Ok (a : A)
| Raise (e : exn).
Arguments Ok {A} a.
Arguments Raise {A} e.

(** Sequencing: an exception raised by the first step skips the rest. *)
#[global] Instance result_bind : MBind result := fun A B k r =>
  match r with
  | Ok a => k a
  | Raise e => Raise e
  end.

(** ** [cript/api/exceptions.py] *)

Module Exceptions.

(** A Python [str] as the sequence of its characters. *)
Abbreviation pystr := (list ascii).

(** [s[:n]] *)
Definition slice_to (s : pystr) (n : Z) : pystr :=
  let len := Z.of_nat (length s) in
  let stop := if n <? 0 then Z.max (len + n) 0 else Z.min n len in
  take (Z.to_nat stop) s.

(** [s[i:]] *)
Definition slice_from (s : pystr) (i : Z) : pystr :=
  let len := Z.of_nat (length s) in
  let start := if i <? 0 then Z.max (len + i) 0 else Z.min i len in
  drop (Z.to_nat start) s.

(** ["*" * n]: empty when [n <= 0]. *)
Definition stars (n : Z) : pystr := replicate (Z.to_nat n) "*"%char.

Record CRIPTConnectionError := {
  host : string;
  token : pystr
}.

(** [CRIPTConnectionError.__init__(self, host, token)] *)
Definition __init__ (host : string) (token : pystr) : CRIPTConnectionError :=
  let uncovered_chars := Z.of_nat (length token) / 4 in
  let t := slice_to token uncovered_chars in
  let t := t ++ stars (Z.of_nat (length token) - 2 * uncovered_chars) in
  let t := t ++ slice_from token (- uncovered_chars) in
  {| host := host; token := t |}.

End Exceptions.

(** ** [cript/nodes/core.py]: the data model *)

Module Core.

(** The Python values a node's attribute record (and a search
    criterion) holds.  Numbers are restricted to integers; [bool]
    is kept apart from [int] but compares equal to [0] and [1] as in
    Python.  A list or dict is represented by its contents: the
    functions of [core.py] never mutate a list they did not build
    themselves ([handled_nodes] apart, which is threaded through
    explicitly). *)
Inductive value : Type :=
| VNone
| VBool (b : bool)
| VInt (z : Z)
| VStr (s : string)
| VNode (a : addr)
| VList (l : list value)
| VDict (d : list (string * value)).

(** An instance of a frozen [JsonAttributes] dataclass: the fields in
    declaration order. *)
Abbreviation JsonAttributes := (list (string * value)).

(** [getattr(attrs, field)] *)
Fixpoint getattr (attrs : JsonAttributes) (field : string) : option value :=
  match attrs with
  | [] => None
  | (k, v) :: rest => if String.eqb k field then Some v else getattr rest field
  end.

(** [dataclasses.replace(attrs, **{field: v})], for a declared field. *)
Fixpoint replace (attrs : JsonAttributes) (field : string) (v : value) : JsonAttributes :=
  match attrs with
  | [] => []
  | (k, w) :: rest =>
      if String.eqb k field then (k, v) :: rest else (k, w) :: replace rest field v
  end.

(** [key in d] and [d[key]] for a dict *)
Definition dict_get (d : list (string * value)) (key : string) : option value :=
  getattr d key.

(** A node class: its name, the defaults of its [JsonAttributes]
    (what [cls.JsonAttributes()] builds) and the signature and body of
    its constructor.  The body receives [self.validate] for the node
    under construction (as a function of the record the node holds at
    that moment), the arguments bound to the named parameters and the
    surplus collected by [**kwargs]; it yields the attribute record
    the constructor leaves in the new node, or raises. *)
Record pyclass : Type := {
  __name__ : string;
  JsonAttributes_defaults : JsonAttributes;
  init_params : list (string * option value);
  init_var_keyword : bool;
  init_body : (JsonAttributes -> result unit) ->
              list (string * value) -> list (string * value) -> result JsonAttributes
}.

Record BaseNode : Type := {
  cls : pyclass;
  _json_attrs : JsonAttributes
}.

(** The store: address [a] holds the node [h !! a]. *)
Abbreviation heap := (list BaseNode).

(** [self._json_attrs = attrs] *)
Definition set_json_attrs (h : heap) (self : addr) (attrs : JsonAttributes) : heap :=
  match h !! self with
  | Some obj => <[self := {| cls := cls obj; _json_attrs := attrs |}]> h
  | None => h
  end.

(** [copy.copy] of a frozen dataclass instance: a new instance with
    the same field values. *)
Definition copy_copy (attrs : JsonAttributes) : JsonAttributes := attrs.

(** *** Equality after [asdict]

    [asdict(node._json_attrs)] copies the record recursively; a node
    inside it is replaced by a [copy.deepcopy] of itself.  [BaseNode]
    defines no [__eq__], so such a copy is equal to no object the
    caller holds: in [v in attr_key] a node never compares equal.
    Dicts compare without regard to the order of their keys. *)
Fixpoint py_eq (x y : value) {struct x} : bool :=
  match x, y with
  | VNone, VNone => true
  | VBool a, VBool b => Bool.eqb a b
  | VInt a, VInt b => Z.eqb a b
  | VBool a, VInt b => Z.eqb (Z.b2z a) b
  | VInt a, VBool b => Z.eqb a (Z.b2z b)
  | VStr a, VStr b => String.eqb a b
  | VList l1, VList l2 =>
      (fix list_eq (l1 l2 : list value) {struct l1} : bool :=
         match l1, l2 with
         | [], [] => true
         | a :: l1', b :: l2' => py_eq a b && list_eq l1' l2'
         | _, _ => false
         end) l1 l2
  | VDict d1, VDict d2 =>
      Nat.eqb (length d1) (length d2) &&
      (fix dict_le (d : list (string * value)) {struct d} : bool :=
         match d with
         | [] => true
         | (k, v) :: d' =>
             match dict_get d2 k with
             | Some w => py_eq v w && dict_le d'
             | None => false
             end
         end) d1
  | _, _ => false
  end.

(** [v in attr_key] *)
Definition py_in (v : value) (attr_key : list value) : bool :=
  existsb (fun e => py_eq e v) attr_key.

(** [if not isinstance(x, list): x = [x]] *)
Definition as_list (x : value) : list value :=
  match x with
  | VList l => l
  | _ => [x]
  end.

(** *** [BaseNode._has_cycle] *)

Section has_cycle_loop.
(** [value._has_cycle(handled_nodes)] of the enclosing definition *)
Variable rec : addr -> list addr -> option (bool * list addr).

(** [for field in self._json_attrs.__dataclass_fields__: ...] *)
Fixpoint has_cycle_fields (fields : JsonAttributes) (handled_nodes : list addr)
  : option (bool * list addr) :=
  match fields with
  | [] => Some (false, handled_nodes)
  | (_, VNode a) :: rest =>
      match rec a handled_nodes with
      | None => None
      | Some (true, handled_nodes) => Some (true, handled_nodes)
      | Some (false, handled_nodes) => has_cycle_fields rest handled_nodes
      end
  | _ :: rest => has_cycle_fields rest handled_nodes
  end.
End has_cycle_loop.

(** [_has_cycle(self, handled_nodes)]; the list [handled_nodes] is
    mutated in place by the source and is returned here next to the
    answer.  [None] only when the fuel runs out. *)
Fixpoint _has_cycle (fuel : nat) (h : heap) (self : addr) (handled_nodes : list addr)
  : option (bool * list addr) :=
  match fuel with
  | O => None
  | S fuel =>
      if bool_decide (self ∈ handled_nodes) then Some (true, handled_nodes)
      else
        let handled_nodes := handled_nodes ++ [self] in
        match h !! self with
        | None => Some (false, handled_nodes)
        | Some obj => has_cycle_fields (_has_cycle fuel h) (_json_attrs obj) handled_nodes
        end
  end.

(** [self._has_cycle()] with [handled_nodes=None]; the fuel given is
    always enough (see [has_cycle_fuel]). *)
Definition has_cycle (h : heap) (self : addr) : bool :=
  match _has_cycle (S (length h)) h self [] with
  | Some (b, _) => b
  | None => false
  end.

(** *** [BaseNode.find_children] *)

Section is_attr_present.
(** [attr.find_children(v, 0)] of the enclosing [find_children] *)
Variable find_children0 : addr -> list (string * value) -> option (list addr).

(** [for attr in attr_key: ... break]: how much the loop adds to
    [number_values_found] for the search value [v]. *)
Fixpoint or_loop (attr_key : list value) (v : value) : option nat :=
  match attr_key with
  | [] => Some O
  | attr :: rest =>
      match attr, v with
      | VNode a, VDict d =>
          match find_children0 a d with
          | None => None
          | Some found => if (0 <? length found)%nat then Some 1%nat else or_loop rest v
          end
      | _, _ => or_loop rest v
      end
  end.

(** [for v in value: ...] *)
Fixpoint count_values (attr_key value : list value) (number_values_found : nat)
  : option nat :=
  match value with
  | [] => Some number_values_found
  | v :: rest =>
      let number_values_found :=
        if py_in v attr_key then S number_values_found else number_values_found in
      match or_loop attr_key v with
      | None => None
      | Some k => count_values attr_key rest (number_values_found + k)%nat
      end
  end.

(** [is_attr_present(node, key, value)] *)
Definition is_attr_present (h : heap) (node : addr) (key : string) (value : value)
  : option bool :=
  let attr_key :=
    match h !! node with
    | Some obj => default VNone (dict_get (_json_attrs obj) key)
    | None => VNone
    end in
  let attr_key := as_list attr_key in
  let value := as_list value in
  match count_values attr_key value 0 with
  | None => None
  | Some number_values_found => Some (Nat.eqb number_values_found (length value))
  end.

(** [for key, value in search_attr.items(): if is_attr_present(...): found_attr += 1] *)
Fixpoint count_attrs (h : heap) (self : addr) (search_attr : list (string * value))
    (found_attr : nat) : option nat :=
  match search_attr with
  | [] => Some found_attr
  | (key, value) :: rest =>
      match is_attr_present h self key value with
      | None => None
      | Some true => count_attrs h self rest (S found_attr)
      | Some false => count_attrs h self rest found_attr
      end
  end.
End is_attr_present.

Section descend.
(** [v.find_children(search_attr, search_depth - 1, handled_nodes=handled_nodes)] *)
Variable rec : addr -> list addr -> option (list addr * list addr).

(** [for v in value: try: found_children += v.find_children(...)
    except AttributeError: pass]: only a node has [find_children]. *)
Fixpoint descend_values (value : list value) (found_children handled_nodes : list addr)
  : option (list addr * list addr) :=
  match value with
  | [] => Some (found_children, handled_nodes)
  | VNode a :: rest =>
      match rec a handled_nodes with
      | None => None
      | Some (found, handled_nodes) =>
          descend_values rest (found_children ++ found) handled_nodes
      end
  | _ :: rest => descend_values rest found_children handled_nodes
  end.

(** [for field in self._json_attrs.__dataclass_fields__: ...] *)
Fixpoint descend_fields (fields : JsonAttributes) (found_children handled_nodes : list addr)
  : option (list addr * list addr) :=
  match fields with
  | [] => Some (found_children, handled_nodes)
  | (_, value) :: rest =>
      match descend_values (as_list value) found_children handled_nodes with
      | None => None
      | Some (found_children, handled_nodes) =>
          descend_fields rest found_children handled_nodes
      end
  end.
End descend.

(** [find_children(self, search_attr, search_depth, handled_nodes)]:
    the found children together with [handled_nodes] as the call
    leaves it.  [None] only when the fuel runs out.  An address the
    store does not hold stands for no object and is skipped like any
    value without [find_children]. *)
Fixpoint find_children (fuel : nat) (h : heap) (self : addr)
    (search_attr : list (string * value)) (search_depth : Z) (handled_nodes : list addr)
  : option (list addr * list addr) :=
  match fuel with
  | O => None
  | S fuel =>
      match h !! self with
      | None => Some ([], handled_nodes)
      | Some obj =>
          if bool_decide (self ∈ handled_nodes) then Some ([], handled_nodes)
          else
            let handled_nodes := handled_nodes ++ [self] in
            let find_children0 a v := fst <$> find_children fuel h a v 0 [] in
            match count_attrs find_children0 h self search_attr 0 with
            | None => None
            | Some found_attr =>
                let found_children :=
                  if Nat.eqb found_attr (length search_attr) then [self] else [] in
                if search_depth =? 0 then Some (found_children, handled_nodes)
                else
                  descend_fields
                    (fun v handled_nodes =>
                       find_children fuel h v search_attr (search_depth - 1) handled_nodes)
                    (_json_attrs obj) found_children handled_nodes
            end
      end
  end.

(** *** The collaborators and [validate] *)

(** The cached API object: [_is_node_schema_valid(node_json)] answers
    with a boolean or raises. *)
Record API : Type := {
  _is_node_schema_valid : string -> result bool
}.

Section WithCollaborators.
(** [json.dumps(self, cls=NodeEncoder, sort_keys=True)]: the encoder
    of [cript.nodes.util] is taken as given; [None] stands for any
    exception it raises. *)
Variable NodeEncoder_dumps : heap -> addr -> option string.
(** [cript.api.api._get_global_cached_api()] *)
Variable _get_global_cached_api : result API.

(** The [json] property *)
Definition json (h : heap) (self : addr) : result string :=
  match NodeEncoder_dumps h self with
  | Some s => Ok s
  | None => Raise CRIPTJsonSerializationError
  end.

(** [validate(self)]; the value of [_is_node_schema_valid] is dropped. *)
Definition validate (h : heap) (self : addr) : result unit :=
  current_api ← _get_global_cached_api;
  node_json ← json h self;
  _ ← _is_node_schema_valid current_api node_json;
  if has_cycle h self then Raise (CRIPTNodeCycleError self) else Ok tt.

(** [_update_json_attrs_if_valid(self, new_json_attr)]: the outcome
    and the store the call leaves behind. *)
Definition _update_json_attrs_if_valid (self : addr) (new_json_attr : JsonAttributes)
    (h : heap) : result unit * heap :=
  match h !! self with
  | None => (Raise (AttributeError "_json_attrs"), h)
  | Some obj =>
      let old_json_attrs := copy_copy (_json_attrs obj) in
      let h := set_json_attrs h self new_json_attr in
      match validate h self with
      | Ok _ => (Ok tt, h)
      | Raise exc => (Raise exc, set_json_attrs h self old_json_attrs)
      end
  end.

(** *** [BaseNode.remove_child] *)

(** [value is child], for a node [child] *)
Definition is_child (value : value) (child : addr) : bool :=
  match value with
  | VNode a => Nat.eqb a child
  | _ => false
  end.

(** [[element for element in value]]: a list gives its elements, a
    dict its keys; anything else that reaches this point is not
    iterable ([TypeError], passed over). *)
Definition elements_of (value : value) : option (list Core.value) :=
  match value with
  | VList l => Some l
  | VDict d => Some (map (fun kv => VStr (fst kv)) d)
  | _ => None
  end.

(** [for i, list_value in enumerate(value): if list_value is child:
    found_child = True; del new_attr_list[i]], from index [i] on. *)
Fixpoint del_children (child : addr) (value : list Core.value) (i : nat)
    (new_attr_list : list Core.value) (found_child : bool)
  : result (bool * list Core.value) :=
  match value with
  | [] => Ok (found_child, new_attr_list)
  | list_value :: rest =>
      if is_child list_value child then
        if (i <? length new_attr_list)%nat
        then del_children child rest (S i) (delete i new_attr_list) true
        else Raise IndexError
      else del_children child rest (S i) new_attr_list found_child
  end.

(** [for field in self._json_attrs.__dataclass_fields__: ...].
    [replaced] records that [new_attrs] is no longer the object
    [self._json_attrs]: [dataclasses.replace] always builds a new
    instance, so [new_attrs is self._json_attrs] holds exactly while
    no [replace] has happened. *)
Fixpoint remove_child_fields (child : addr) (default_json_attrs : JsonAttributes)
    (fields : JsonAttributes) (new_attrs : JsonAttributes) (replaced : bool)
  : result (JsonAttributes * bool) :=
  match fields with
  | [] => Ok (new_attrs, replaced)
  | (field, value) :: rest =>
      if is_child value child then
        match getattr default_json_attrs field with
        | None => Raise (AttributeError field)
        | Some d =>
            remove_child_fields child default_json_attrs rest (replace new_attrs field d) true
        end
      else
        match value with
        | VStr _ => remove_child_fields child default_json_attrs rest new_attrs replaced
        | _ =>
            match elements_of value with
            | None => remove_child_fields child default_json_attrs rest new_attrs replaced
            | Some elements =>
                match del_children child elements 0 elements false with
                | Raise e => Raise e
                | Ok (true, new_attr_list) =>
                    Ok (replace new_attrs field (VList new_attr_list), true)
                | Ok (false, _) =>
                    remove_child_fields child default_json_attrs rest new_attrs replaced
                end
            end
        end
  end.

(** [remove_child(self, child)] *)
Definition remove_child (self child : addr) (h : heap) : result bool * heap :=
  match h !! self with
  | None => (Raise (AttributeError "_json_attrs"), h)
  | Some obj =>
      let default_json_attrs := JsonAttributes_defaults (cls obj) in
      match remove_child_fields child default_json_attrs (_json_attrs obj)
              (_json_attrs obj) false with
      | Raise e => (Raise e, h)
      | Ok (_, false) => (Ok false, h)
      | Ok (new_attrs, true) =>
          match _update_json_attrs_if_valid self new_attrs h with
          | (Ok _, h) => (Ok true, h)
          | (Raise e, h) => (Raise e, h)
          end
      end
  end.

(** *** [BaseNode._from_json] *)

Definition is_key {B : Type} (k : string) (d : list (string * B)) : bool :=
  existsb (fun kv => String.eqb (fst kv) k) d.

(** [cls( **json)], first half: every key goes to the parameter of
    that name, or to [**kwargs], or is refused. *)
Fixpoint bind_keywords (params : list (string * option value)) (var_keyword : bool)
    (json : list (string * value))
  : result (list (string * value) * list (string * value)) :=
  match json with
  | [] => Ok ([], [])
  | (k, v) :: rest =>
      if is_key k params then
        r ← bind_keywords params var_keyword rest;
        Ok ((k, v) :: fst r, snd r)
      else if var_keyword then
        r ← bind_keywords params var_keyword rest;
        Ok (fst r, (k, v) :: snd r)
      else Raise (TypeError k)
  end.

(** [cls( **json)], second half: a parameter that got no argument
    takes its default, or the call is refused. *)
Fixpoint bind_defaults (params : list (string * option value))
    (named : list (string * value)) : result (list (string * value)) :=
  match params with
  | [] => Ok []
  | (p, d) :: rest =>
      match dict_get named p, d with
      | Some v, _ | None, Some v =>
          args ← bind_defaults rest named;
          Ok ((p, v) :: args)
      | None, None => Raise (TypeError p)
      end
  end.

(** [cls( **json)]: the attribute record of the constructed node,
    which is allocated at the next free address. *)
Definition construct (c : pyclass) (json : list (string * value)) (h : heap)
  : result JsonAttributes :=
  r ← bind_keywords (init_params c) (init_var_keyword c) json;
  args ← bind_defaults (init_params c) (fst r);
  let validate_self attrs := validate (h ++ [{| cls := c; _json_attrs := attrs |}]) (length h) in
  init_body c validate_self args (snd r).

(** [for key in reference_nodes: if key in json:
    valid_keyword_dict[key] = json[key]] *)
Fixpoint valid_keywords (reference_nodes : JsonAttributes) (json : list (string * value))
  : list (string * value) :=
  match reference_nodes with
  | [] => []
  | (key, _) :: rest =>
      match dict_get json key with
      | Some v => (key, v) :: valid_keywords rest json
      | None => valid_keywords rest json
      end
  end.

(** [cls.JsonAttributes( **valid_keyword_dict)]: a keyword that is no
    field is refused; a field without keyword takes its default. *)
Definition new_JsonAttributes (c : pyclass) (kw : list (string * value))
  : result JsonAttributes :=
  match List.find (fun kv => negb (is_key (fst kv) (JsonAttributes_defaults c))) kw with
  | Some (k, _) => Raise (TypeError k)
  | None =>
      Ok (map (fun fd => (fst fd, default (snd fd) (dict_get kw (fst fd))))
            (JsonAttributes_defaults c))
  end.

(** [_from_json(cls, json)]: the new node's address and the store. *)
Definition _from_json (c : pyclass) (json : list (string * value)) (h : heap)
  : result addr * heap :=
  match construct c json h with
  | Raise e => (Raise e, h)
  | Ok attrs0 =>
      let node := length h in
      let h := h ++ [{| cls := c; _json_attrs := attrs0 |}] in
      let reference_nodes := attrs0 in
      let valid_keyword_dict := valid_keywords reference_nodes json in
      match new_JsonAttributes c valid_keyword_dict with
      | Raise e => (Raise e, h)
      | Ok attrs =>
          match _update_json_attrs_if_valid node attrs h with
          | (Ok _, h) => (Ok node, h)
          | (Raise e, h) => (Raise e, h)
          end
      end
  end.

(** The constructor call the specification describes: only the keys
    of the input that name a constructor parameter are passed. *)
Definition construct_matching_keys (c : pyclass) (json : list (string * value)) (h : heap)
  : result JsonAttributes :=
  construct c (List.filter (fun kv => is_key (fst kv) (init_params c)) json) h.

(** [BaseNode.__init__(self)], reached through [super().__init__(...)]
    with the keyword arguments [kwargs]: the signature has no
    parameter besides [self]. *)
Definition BaseNode___init__ (name : string) (attrs : JsonAttributes)
    (kwargs : list (string * value)) : result JsonAttributes :=
  match kwargs with
  | [] => Ok (replace attrs "node" (VList [VStr name]))
  | (k, _) :: _ => Raise (TypeError k)
  end.

End WithCollaborators.

End Core.

(** ** [cript/nodes/subobjects/algorithm.py] *)

Module Algorithm.
Import Core.

(** [Algorithm.JsonAttributes()] *)
Definition defaults : JsonAttributes :=
  [("node", VStr "Algorithm"); ("key", VStr ""); ("type", VStr "");
   ("parameter", VList []); ("citation", VList [])].

(** [Algorithm.__init__(self, key, type, parameter=None, citation=None)].
    Its first statement after the defaults is
    [super().__init__(node="Algorithm")]. *)
Definition class : pyclass := {|
  __name__ := "Algorithm";
  JsonAttributes_defaults := defaults;
  init_params := [("key", None); ("type", None); ("parameter", Some VNone);
                  ("citation", Some VNone)];
  init_var_keyword := false;
  init_body := fun validate_self args _ =>
    let parameter := match dict_get args "parameter" with
                     | Some VNone | None => VList [] | Some v => v end in
    attrs ← BaseNode___init__ "Algorithm" defaults [("node", VStr "Algorithm")];
    let attrs := replace attrs "key" (default VNone (dict_get args "key")) in
    let attrs := replace attrs "type" (default VNone (dict_get args "type")) in
    let attrs := replace attrs "parameter" parameter in
    _ ← validate_self attrs;
    Ok attrs
|}.

Section WithCollaborators.
Variable NodeEncoder_dumps : heap -> addr -> option string.
Variable _get_global_cached_api : result API.

(** The four setters share one shape:
    [self._json_attrs = replace(self._json_attrs, field=new);
     self.validate()]. *)
Definition set_field (field : string) (self : addr) (new : value) (h : heap)
  : result unit * heap :=
  match h !! self with
  | None => (Raise (AttributeError "_json_attrs"), h)
  | Some obj =>
      let h := set_json_attrs h self (replace (_json_attrs obj) field new) in
      (validate NodeEncoder_dumps _get_global_cached_api h self, h)
  end.

(** [@key.setter] *)
Definition set_key := set_field "key".
(** [@type.setter] *)
Definition set_type := set_field "type".
(** [@parameter.setter] *)
Definition set_parameter := set_field "parameter".
(** [@citation.setter] *)
Definition set_citation := set_field "citation".
End WithCollaborators.

End Algorithm.

(** ** [cript/nodes/subobjects/software_configuration.py] *)

Module SoftwareConfiguration.
Import Core.

(** [SoftwareConfiguration.JsonAttributes()] *)
Definition defaults : JsonAttributes :=
  [("node", VList []); ("software", VNone); ("algorithms", VList []);
   ("notes", VStr ""); ("citation", VList [])].

(** [SoftwareConfiguration.__init__(self, software, algorithms=None,
    notes="", citation=None, **kwargs)] *)
Definition class : pyclass := {|
  __name__ := "SoftwareConfiguration";
  JsonAttributes_defaults := defaults;
  init_params := [("software", None); ("algorithms", Some VNone);
                  ("notes", Some (VStr "")); ("citation", Some VNone)];
  init_var_keyword := true;
  init_body := fun validate_self args kwargs =>
    let algorithms := match dict_get args "algorithms" with
                      | Some VNone | None => VList [] | Some v => v end in
    let citation := match dict_get args "citation" with
                    | Some VNone | None => VList [] | Some v => v end in
    attrs ← BaseNode___init__ "SoftwareConfiguration" defaults kwargs;
    let attrs := replace attrs "software" (default VNone (dict_get args "software")) in
    let attrs := replace attrs "algorithms" algorithms in
    let attrs := replace attrs "notes" (default VNone (dict_get args "notes")) in
    let attrs := replace attrs "citation" citation in
    _ ← validate_self attrs;
    Ok attrs
|}.

Section WithCollaborators.
Variable NodeEncoder_dumps : heap -> addr -> option string.
Variable _get_global_cached_api : result API.

(** The four setters share one shape:
    [new_attrs = replace(self._json_attrs, field=new);
     self._update_json_attrs_if_valid(new_attrs)]. *)
Definition set_field (field : string) (self : addr) (new : value) (h : heap)
  : result unit * heap :=
  match h !! self with
  | None => (Raise (AttributeError "_json_attrs"), h)
  | Some obj =>
      let new_attrs := replace (_json_attrs obj) field new in
      _update_json_attrs_if_valid NodeEncoder_dumps _get_global_cached_api self new_attrs h
  end.

(** [@software.setter] *)
Definition set_software := set_field "software".
(** [@algorithms.setter] *)
Definition set_algorithms := set_field "algorithms".
(** [@notes.setter] *)
Definition set_notes := set_field "notes".
(** [@citation.setter] *)
Definition set_citation := set_field "citation".
End WithCollaborators.

End SoftwareConfiguration.

(** ** The list-valued getters, with lists as objects

    The getters of [Algorithm] and [SoftwareConfiguration] hand out
    lists, and a Python list is a mutable object.  To speak about what
    a caller can do with the list it receives, this module refines the
    representation: a list-valued field holds the location of a list
    object, and the store maps locations to the current elements. *)

Module ListObjects.
Import Core.

Abbreviation loc := nat.
(** The list objects, by location. *)
Abbreviation lists := (list (list value)).

(** [l.copy()]: a new list object with the elements of [l]. *)
Definition list_copy (ls : lists) (l : loc) : option (loc * lists) :=
  match ls !! l with
  | Some elements => Some (length ls, ls ++ [elements])
  | None => None
  end.

(** What can be done to a list object in place. *)
Inductive mutation : Type :=
| Append (x : value)
| Extend (xs : list value)
| Insert (i : nat) (x : value)
| DelItem (i : nat)
| SetItem (i : nat) (x : value)
| Reverse
| Clear
| Reorder (f : list value -> list value).

Definition apply_mutation (m : mutation) (elements : list value) : list value :=
  match m with
  | Append x => elements ++ [x]
  | Extend xs => elements ++ xs
  | Insert i x => take i elements ++ x :: drop i elements
  | DelItem i => delete i elements
  | SetItem i x => <[i := x]> elements
  | Reverse => reverse elements
  | Clear => []
  | Reorder f => f elements
  end.

(** A mutation of the list object at [l]. *)
Definition mutate (l : loc) (ls : lists) (m : mutation) : lists :=
  alter (apply_mutation m) l ls.

(** The list-valued fields of [Algorithm.JsonAttributes]. *)
Record AlgorithmAttributes : Type := {
  alg_parameter : loc;
  alg_citation : loc
}.

(** The list-valued fields of [SoftwareConfiguration.JsonAttributes]. *)
Record SoftwareConfigurationAttributes : Type := {
  sc_algorithms : loc;
  sc_citation : loc
}.

(** [Algorithm.parameter]: [return self._json_attrs.parameter.copy()] *)
Definition Algorithm_parameter (attrs : AlgorithmAttributes) (ls : lists) :=
  list_copy ls (alg_parameter attrs).
(** [Algorithm.citation]: [return self._json_attrs.citation.copy()] *)
Definition Algorithm_citation (attrs : AlgorithmAttributes) (ls : lists) :=
  list_copy ls (alg_citation attrs).
(** [SoftwareConfiguration.algorithms]:
    [return self._json_attrs.algorithms.copy()] *)
Definition SoftwareConfiguration_algorithms (attrs : SoftwareConfigurationAttributes)
    (ls : lists) :=
  list_copy ls (sc_algorithms attrs).
(** [SoftwareConfiguration.citation]:
    [return self._json_attrs.citation.copy()] *)
Definition SoftwareConfiguration_citation (attrs : SoftwareConfigurationAttributes)
    (ls : lists) :=
  list_copy ls (sc_citation attrs).

(** What a getter owes its caller: a list object with the elements of
    the list [l] of the record, such that no sequence of mutations of
    the returned object changes a list object that existed before the
    call, the record's own lists among them. *)
Definition returns_fresh_copy (ls : lists) (l : loc) (r : option (loc * lists)) : Prop :=
  exists l' ls',
    r = Some (l', ls') /\
    ls' !! l' = ls !! l /\
    forall (ms : list mutation) (k : loc),
      (k < length ls)%nat -> foldl (mutate l') ls' ms !! k = ls !! k.

(** A store of list objects for examples. *)
Definition ls_example : lists :=
  [[VNode 1%nat; VNode 2%nat]; []; [VNode 3%nat]; [VNode 4%nat]].

End ListObjects.



(** ** The graph of a store, in the words of the specification

    "The reachable closure of Nodes from a root entry point, reached by
    following all reference-valued fields", where a reference-valued
    field holds a node or an ordered list of nodes. *)

Module Graph.
Import Core.

Definition node_of (v : value) : option addr :=
  match v with
  | VNode a => Some a
  | _ => None
  end.

(** The nodes a record refers to, in field order, then list order. *)
Definition references (attrs : JsonAttributes) : list addr :=
  flat_map (fun fv => omap node_of (as_list (snd fv))) attrs.

Definition children (h : heap) (n : addr) : list addr :=
  match h !! n with
  | Some obj => references (_json_attrs obj)
  | None => []
  end.

(** [n] refers to the node [m] of the store. *)
Definition edge (h : heap) (n m : addr) : Prop :=
  m ∈ children h n /\ is_Some (h !! m).

(** [m] belongs to the subgraph rooted at [n]. *)
Definition reachable (h : heap) (n m : addr) : Prop := rtc (edge h) n m.

(** [n] is reachable from itself: it lies on a cycle. *)
Definition on_cycle (h : heap) (n : addr) : Prop := tc (edge h) n n.

(** [m] is reachable from [n] in at most [k] steps. *)
Definition within (h : heap) (k : nat) (n m : addr) : Prop :=
  exists i, (i <= k)%nat /\ nsteps (edge h) i n m.

(** The store is a forest: a node is referred to by one node at most,
    and no node lies on a cycle. *)
Definition forest (h : heap) : Prop :=
  (forall p1 p2 m, edge h p1 m -> edge h p2 m -> p1 = p2) /\
  (forall n, ~ on_cycle h n).

(** [m] is within the reach of a search of depth [d] started at [n]:
    any distance for a negative depth, at most [d] steps otherwise. *)
Definition near (h : heap) (d : Z) (n m : addr) : Prop :=
  if d <? 0 then reachable h n m else within h (Z.to_nat d) n m.

End Graph.

(** ** Search criteria, in the words of the specification

    A node satisfies the criteria when, for every requested key, every
    requested value is found in the node's field of that name: the
    field taken as the list of its elements, a requested value is found
    when it equals one of the elements, or when it is a dict and one of
    the elements is a node that itself satisfies that dict, looked at
    on its own, not its children. *)

Module Criteria.
Import Core.

(** The field [key] of node [n] as a list, as [is_attr_present] reads
    it: a missing field reads as [None]. *)
Definition attr_of (h : heap) (n : addr) (key : string) : list value :=
  as_list (match h !! n with
           | Some obj => default VNone (dict_get (_json_attrs obj) key)
           | None => VNone
           end).

(** The requested value [v] is found among the elements [attr_key]. *)
Fixpoint found_in (h : heap) (attr_key : list value) (v : value) {struct v} : bool :=
  py_in v attr_key ||
  match v with
  | VDict d =>
      existsb
        (fun e =>
           match e with
           | VNode a =>
               match h !! a with
               | Some _ =>
                   (fix all (d : list (string * value)) : bool :=
                      match d with
                      | [] => true
                      | (key, value) :: rest =>
                          match value with
                          | VList l =>
                              (fix each (l : list Core.value) : bool :=
                                 match l with
                                 | [] => true
                                 | v' :: l' => found_in h (attr_of h a key) v' && each l'
                                 end) l
                          | _ => found_in h (attr_of h a key) value && true
                          end && all rest
                      end) d
               | None => false
               end
           | _ => false
           end) attr_key
  | _ => false
  end.

(** Node [n] satisfies all of [search_attr]. *)
Definition satisfies (h : heap) (n : addr) (search_attr : list (string * value)) : bool :=
  forallb (fun kv => forallb (found_in h (attr_of h n (fst kv))) (as_list (snd kv)))
          search_attr.

(** A node of the store that satisfies the dict [d]. *)
Definition node_satisfies (h : heap) (a : addr) (d : list (string * value)) : bool :=
  match h !! a with
  | Some _ => satisfies h a d
  | None => false
  end.

(** The dict [v] is satisfied by one of the nodes among [attr_key]. *)
Definition nested_found (h : heap) (attr_key : list value) (v : value) : bool :=
  match v with
  | VDict d =>
      existsb (fun e => match e with
                        | VNode a => node_satisfies h a d
                        | _ => false
                        end) attr_key
  | _ => false
  end.

(** The typed fields of the data model: a list-valued field holds
    nodes or plain data, never dicts and nodes side by side. *)
Definition is_dict (v : value) : bool :=
  match v with VDict _ => true | _ => false end.
Definition is_node (v : value) : bool :=
  match v with VNode _ => true | _ => false end.
Definition unmixed (l : list value) : bool :=
  negb (existsb is_dict l && existsb is_node l).
Definition typed_record (attrs : JsonAttributes) : bool :=
  forallb (fun fv => unmixed (as_list (snd fv))) attrs.
Definition typed (h : heap) : Prop :=
  Forall (fun obj => typed_record (_json_attrs obj) = true) h.

End Criteria.

(** ** What a stretch of the search leaves behind

    A stretch of the search starts from the candidates [cs], each to be
    searched to depth [d], with [H] handled so far; it finds [F] and
    leaves [H'] handled.  The nodes it appends to the handled list are
    the nodes it visits. *)

Module Walk.
Import Core Graph Criteria.

Definition walk_inv (h : heap) (search_attr : list (string * value)) (cs : list addr)
    (d : Z) (H F H' : list addr) : Prop :=
  exists new,
    H' = H ++ new /\
    NoDup new /\
    (forall n, n ∈ new -> n ∉ H) /\
    F `sublist_of` new /\
    (typed h -> F = filter (fun n => satisfies h n search_attr = true) new) /\
    (forall n, n ∈ new -> is_Some (h !! n) /\ exists a, a ∈ cs /\ near h d a n) /\
    (d < 0 -> forall n m, n ∈ new -> edge h n m -> m ∈ H') /\
    (forall a, a ∈ cs -> is_Some (h !! a) -> a ∈ H').

(** The two loops of the descent, as one loop over the nodes the
    record refers to. *)
Fixpoint descend_nodes (rec : addr -> list addr -> option (list addr * list addr))
    (cs : list addr) (found_children handled_nodes : list addr)
  : option (list addr * list addr) :=
  match cs with
  | [] => Some (found_children, handled_nodes)
  | a :: rest =>
      match rec a handled_nodes with
      | None => None
      | Some (found, handled_nodes) =>
          descend_nodes rec rest (found_children ++ found) handled_nodes
      end
  end.

End Walk.

(** ** Measures for the fuel of the graph walks *)

Module Measure.
Import Core.

(** The nodes of the store a walk has not handled yet. *)
Definition unhandled (h : heap) (handled_nodes : list addr) : nat :=
  length (filter (fun a => a ∉ handled_nodes) (seq 0 (length h))).

(** The size of a search criterion: the number of nested dicts and
    lists is what bounds the depth of the nested self-matches. *)
Fixpoint value_size (v : value) : nat :=
  match v with
  | VList l => S (list_sum (map value_size l))
  | VDict d => S (list_sum (map (fun kv => value_size (snd kv)) d))
  | _ => 1
  end.

Definition criteria_size (search_attr : list (string * value)) : nat :=
  list_sum (map (fun kv => value_size (snd kv)) search_attr).

End Measure.

(** ** Concrete stores used in examples *)

Module Examples.
Import Core.

(** A class for the nodes whose own source is not among the files
    embedded here ([Parameter], [User], [Data], ...): only the record of
    such a node matters below.  Its constructor takes no argument. *)
Definition plain_class (name : string) (defaults : JsonAttributes) : pyclass := {|
  __name__ := name;
  JsonAttributes_defaults := defaults;
  init_params := [];
  init_var_keyword := false;
  init_body := fun _ _ kwargs => BaseNode___init__ name defaults kwargs
|}.

Definition Parameter_defaults : JsonAttributes :=
  [("node", VList []); ("key", VStr ""); ("value", VNone); ("unit", VNone)].

Definition parameter (key : string) (v : Z) (unit : string) : BaseNode := {|
  cls := plain_class "Parameter" Parameter_defaults;
  _json_attrs := [("node", VList [VStr "Parameter"]); ("key", VStr key);
                  ("value", VInt v); ("unit", VStr unit)]
|}.

Definition algorithm (key type : string) (parameter : list value) : BaseNode := {|
  cls := Algorithm.class;
  _json_attrs := [("node", VList [VStr "Algorithm"]); ("key", VStr key); ("type", VStr type);
                  ("parameter", VList parameter); ("citation", VList [])]
|}.

(** The store of [test_local_search]: the algorithm [a] at address 0
    with the parameters [p1] (address 1) and [p2] (address 2). *)
Definition h_search : heap :=
  [algorithm "mc_barostat" "barostat" [VNode 1%nat; VNode 2%nat];
   parameter "update_frequency" 1000 "1/second";
   parameter "damping_time" 15 "m"].

(** An algorithm holding one parameter, next to a second parameter
    (address 2) with the same contents as the held one (address 1). *)
Definition h_twin : heap :=
  [algorithm "mc_barostat" "barostat" [VNode 1%nat];
   parameter "update_frequency" 1000 "1/second";
   parameter "update_frequency" 1000 "1/second"].

(** An algorithm holding the same parameter twice. *)
Definition h_twice : heap :=
  [algorithm "mc_barostat" "barostat" [VNode 1%nat; VNode 1%nat];
   parameter "update_frequency" 1000 "1/second"].

(** An algorithm with the parameter list [[c, x, c, y]]. *)
Definition h_four : heap :=
  [algorithm "mc_barostat" "barostat" [VNode 1%nat; VNode 2%nat; VNode 1%nat; VNode 3%nat];
   parameter "c" 1 "m"; parameter "x" 2 "m"; parameter "y" 3 "m"].

(** A primary node whose [updated_by] and [created_by] are the same
    [User]: a shared node, no cycle. *)
Definition h_shared : heap :=
  [{| cls := plain_class "Project" [("node", VList []); ("updated_by", VNone); ("created_by", VNone)];
      _json_attrs := [("node", VList [VStr "Project"]); ("updated_by", VNode 1%nat);
                      ("created_by", VNode 1%nat)] |};
   {| cls := plain_class "User" [("node", VList []); ("username", VStr "")];
      _json_attrs := [("node", VList [VStr "User"]); ("username", VStr "ada")] |}].

(** The cycle of [test_cycles]: a data node listing a computation that
    lists the data node as output. *)
Definition h_list_cycle : heap :=
  [{| cls := plain_class "Data" [("node", VList []); ("computation", VList [])];
      _json_attrs := [("node", VList [VStr "Data"]); ("computation", VList [VNode 1%nat])] |};
   {| cls := plain_class "Computation" [("node", VList []); ("output_data", VList [])];
      _json_attrs := [("node", VList [VStr "Computation"]);
                      ("output_data", VList [VNode 0%nat])] |}].

(** A chain of four nodes, each the only child of the one before. *)
Definition link (name : string) (next : value) : BaseNode := {|
  cls := plain_class name [("node", VList []); ("next", VNone)];
  _json_attrs := [("node", VList [VStr name]); ("next", next)]
|}.
Definition h_chain : heap :=
  [link "a" (VNode 1%nat); link "b" (VNode 2%nat); link "c" (VNode 3%nat); link "d" VNone].

(** A root with the children [a] and [b], where [a] refers to [b] as
    well, and [b] has the child [c]. *)
Definition h_shared_child : heap :=
  [{| cls := plain_class "root" [("node", VList []); ("first", VNone); ("second", VNone)];
      _json_attrs := [("node", VList [VStr "root"]); ("first", VNode 1%nat);
                      ("second", VNode 2%nat)] |};
   link "a" (VNode 2%nat); link "b" (VNode 3%nat); link "c" VNone].

(** A node whose list field holds a dict and a node at once. *)
Definition h_mixed : heap :=
  [{| cls := plain_class "Holder" [("node", VList []); ("items", VList [])];
      _json_attrs := [("node", VList [VStr "Holder"]);
                      ("items", VList [VDict [("key", VStr "x")]; VNode 1%nat])] |};
   parameter "x" 1 "m"].

(** The same with an [Algorithm]: its [parameter] list holds a dict
    and a [Parameter] node. *)
Definition h_mixed_algorithm : heap :=
  [algorithm "mc_barostat" "barostat" [VDict [("key", VStr "x")]; VNode 1%nat];
   parameter "x" 1 "m"].

(** The criteria of [test_local_search]. *)
Definition crit_damping : list (string * value) := [("key", VStr "damping_time")].
Definition crit_both : list (string * value) :=
  [("parameter", VList [VDict [("key", VStr "damping_time")];
                        VDict [("key", VStr "update_frequency")]])].
Definition crit_third : list (string * value) :=
  [("parameter", VList [VDict [("key", VStr "damping_time")];
                        VDict [("key", VStr "update_frequency")];
                        VDict [("foo", VStr "bar")]])].

(** Two requested values for [items]; no element of [h_mixed] has the
    key ["y"]. *)
Definition crit_mixed : list (string * value) :=
  [("items", VList [VDict [("key", VStr "x")]; VDict [("key", VStr "y")]])].
Definition crit_mixed_parameter : list (string * value) :=
  [("parameter", VList [VDict [("key", VStr "x")]; VDict [("key", VStr "y")]])].

(** The input of a serialized [SoftwareConfiguration], which carries
    its type tags under ["node"]. *)
Definition json_with_node : list (string * value) :=
  [("node", VList [VStr "SoftwareConfiguration"]); ("software", VNone); ("notes", VStr "n")].

(** Stand-ins for the collaborators.  This encoder writes the [key] of
    a node; this schema accepts every document but the empty one. *)
Definition key_encoder (h : heap) (self : addr) : option string :=
  match h !! self with
  | Some obj =>
      match getattr (_json_attrs obj) "key" with
      | Some (VStr k) => Some k
      | _ => Some "null"
      end
  | None => None
  end.

Definition nonempty_schema : result API :=
  Ok {| _is_node_schema_valid := fun node_json =>
          if String.eqb node_json "" then Raise (CRIPTNodeSchemaError "key") else Ok true |}.

(** A schema that accepts every document. *)
Definition any_schema : result API :=
  Ok {| _is_node_schema_valid := fun _ => Ok true |}.

End Examples.

(** ** Getters, and the graph of the scalar reference fields *)

Module Accessors.
Import Core.

(** A getter, [return self._json_attrs.<field>]; for a list-valued
    field, [return self._json_attrs.<field>.copy()], which has the
    same elements.  This covers the getters of [PrimaryBaseNode],
    [Algorithm] and [SoftwareConfiguration]. *)
Definition get_field (field : string) (self : addr) (h : heap) : option value :=
  match h !! self with
  | Some obj => getattr (_json_attrs obj) field
  | None => None
  end.

(** The nodes held by the scalar fields of a record: the values
    [_has_cycle] follows. *)
Definition scalar_references (attrs : JsonAttributes) : list addr :=
  omap (fun fv => Graph.node_of (snd fv)) attrs.

(** A scalar field of [n] holds [m]. *)
Definition scalar_edge (h : heap) (n m : addr) : Prop :=
  exists obj, h !! n = Some obj /\ m ∈ scalar_references (_json_attrs obj).

(** Every scalar reference of a node of [seg] leads to a later place
    of [seg]. *)
Definition forward (h : heap) (seg : list addr) : Prop :=
  forall i n m, seg !! i = Some n -> scalar_edge h n m ->
                exists j, (i < j)%nat /\ seg !! j = Some m.

(** What a walk that answers [False] has appended to the handled
    list. *)
Definition clean_walk (h : heap) (self : addr) (H H' : list addr) : Prop :=
  exists seg,
    H' = H ++ seg /\ seg !! 0%nat = Some self /\
    (forall x, x ∈ seg -> x ∉ H) /\ NoDup seg /\ forward h seg.

(** A [SoftwareConfiguration] node next to the [Software] it uses. *)
Definition h_configuration : heap :=
  [{| cls := SoftwareConfiguration.class;
      _json_attrs := [("node", VList [VStr "SoftwareConfiguration"]); ("software", VNode 1%nat);
                      ("algorithms", VList []); ("notes", VStr "first run");
                      ("citation", VList [])] |};
   {| cls := Examples.plain_class "Software" [("node", VList []); ("name", VStr "")];
      _json_attrs := [("node", VList [VStr "Software"]); ("name", VStr "LAMMPS")] |}].

(** This encoder writes the [notes] of a node. *)
Definition notes_encoder (h : heap) (self : addr) : option string :=
  match h !! self with
  | Some obj =>
      match getattr (_json_attrs obj) "notes" with
      | Some (VStr k) => Some k
      | _ => Some "null"
      end
  | None => None
  end.

(** Two nodes that hold each other in a scalar field. *)
Definition h_scalar_cycle : heap :=
  [Examples.link "a" (VNode 1%nat); Examples.link "b" (VNode 0%nat)].

End Accessors.

(** ** Theorems: [CRIPTConnectionError] *)

Module ExceptionsFacts.
Import Exceptions.

Lemma init_shape (h : string) (tok : pystr) :
  (4 <= length tok)%nat ->
  let u := (length tok / 4)%nat in
  token (__init__ h tok)
  = take u tok ++ replicate (length tok - 2 * u) "*"%char ++ drop (length tok - u) tok.
Proof.
  intros Hlen u. unfold __init__, slice_to, slice_from, stars. cbn [token].
  assert (Hu : Z.of_nat (length tok) / 4 = Z.of_nat u).
  { unfold u. rewrite Nat2Z.inj_div. reflexivity. }
  assert (Hu1 : (1 <= u)%nat).
  { unfold u. change 1%nat with (4 / 4)%nat. apply Nat.Div0.div_le_mono. exact Hlen. }
  assert (Hu4 : (4 * u <= length tok)%nat).
  { unfold u. apply Nat.Div0.mul_div_le. }
  rewrite Hu.
  destruct (Z.of_nat u <? 0) eqn:E1; [apply Z.ltb_lt in E1; lia|].
  destruct (- Z.of_nat u <? 0) eqn:E2; [|apply Z.ltb_ge in E2; lia].
  rewrite <- app_assoc. f_equal; [|f_equal].
  - f_equal. lia.
  - f_equal. lia.
  - f_equal. lia.
Qed.

(** C10.  For every host and every token of length at least 4, the
    constructed error stores the host and a masked token of the same
    length as the original: its first [len/4] and last [len/4]
    characters are those of the original, every character in between
    is ['*'] (at least two of them), and the stored value depends on
    the original only through its length and those two ends, so the
    full token is not kept. *)
Theorem connection_error_masks_token (h : string) (tok : pystr) :
  (4 <= length tok)%nat ->
  let u := (length tok / 4)%nat in
  let stored := token (__init__ h tok) in
  host (__init__ h tok) = h /\
  length stored = length tok /\
  (forall i, (i < u)%nat -> stored !! i = tok !! i) /\
  (forall i, (u <= i < length tok - u)%nat -> stored !! i = Some "*"%char) /\
  (forall i, (length tok - u <= i < length tok)%nat -> stored !! i = tok !! i) /\
  (2 <= length tok - 2 * u)%nat /\
  (forall tok', length tok' = length tok ->
                take u tok' = take u tok ->
                drop (length tok - u) tok' = drop (length tok - u) tok ->
                token (__init__ h tok') = stored).
Proof.
  intros Hlen u stored.
  assert (Hu4 : (4 * u <= length tok)%nat) by (unfold u; apply Nat.Div0.mul_div_le).
  assert (Hu1 : (1 <= u)%nat).
  { unfold u. change 1%nat with (4 / 4)%nat. apply Nat.Div0.div_le_mono. exact Hlen. }
  assert (Hs : stored = take u tok ++ replicate (length tok - 2 * u) "*"%char
                        ++ drop (length tok - u) tok)
    by (apply init_shape; exact Hlen).
  assert (Htake : length (take u tok) = u) by (rewrite length_take; lia).
  assert (Hrep : length (replicate (length tok - 2 * u) "*"%char) = (length tok - 2 * u)%nat)
    by apply length_replicate.
  split; [reflexivity|].
  split.
  { rewrite Hs, !length_app, Htake, Hrep, length_drop. lia. }
  split.
  { intros i Hi. rewrite Hs, lookup_app_l by lia. apply lookup_take_lt. exact Hi. }
  split.
  { intros i Hi. rewrite Hs, lookup_app_r by lia. rewrite Htake.
    rewrite lookup_app_l by (rewrite Hrep; lia).
    apply lookup_replicate_2. lia. }
  split.
  { intros i Hi. rewrite Hs, lookup_app_r by lia. rewrite Htake.
    rewrite lookup_app_r by (rewrite Hrep; lia). rewrite Hrep.
    rewrite lookup_drop. f_equal. lia. }
  split; [lia|].
  intros tok' Hl Ht Hd.
  rewrite Hs. rewrite init_shape by lia. cbn zeta. rewrite Hl. fold u.
  rewrite Ht, Hd. reflexivity.
Qed.

Lemma connection_error_masks_token_witness :
  let tok := list_ascii_of_string "0123456789abcdef" in
  (4 <= length tok)%nat /\
  length (token (__init__ "https://criptapp.org" tok)) = length tok /\
  token (__init__ "https://criptapp.org" tok) !! 7%nat = Some "*"%char.
Proof.
  intros tok.
  assert (Hlen : (4 <= length tok)%nat) by (vm_compute; lia).
  destruct (connection_error_masks_token "https://criptapp.org" tok Hlen)
    as (_ & Hl & _ & Hmid & _).
  split; [exact Hlen|]. split; [exact Hl|].
  apply Hmid. vm_compute. lia.
Defined.

End ExceptionsFacts.

(** ** Theorems: [BaseNode] *)

Module CoreFacts.
Import Core Graph.

#[local] Arguments Nat.ltb : simpl never.
#[local] Arguments Nat.leb : simpl never.

(** *** Records and the store *)

Lemma set_json_attrs_lookup (h : heap) (self : addr) (obj : BaseNode) (attrs : JsonAttributes) :
  h !! self = Some obj ->
  set_json_attrs h self attrs !! self = Some {| cls := cls obj; _json_attrs := attrs |}.
Proof.
  intros H. unfold set_json_attrs. rewrite H.
  apply list_lookup_insert_eq. eapply lookup_lt_Some; eauto.
Qed.

Lemma set_json_attrs_other (h : heap) (self a : addr) (attrs : JsonAttributes) :
  a <> self -> set_json_attrs h self attrs !! a = h !! a.
Proof.
  intros H. unfold set_json_attrs. destruct (h !! self); [|reflexivity].
  apply list_lookup_insert_ne. congruence.
Qed.

Lemma set_json_attrs_length (h : heap) (self : addr) (attrs : JsonAttributes) :
  length (set_json_attrs h self attrs) = length h.
Proof.
  unfold set_json_attrs. destruct (h !! self); [|reflexivity]. apply length_insert.
Qed.

(** Writing the old record back undoes the write. *)
Lemma set_json_attrs_restore (h : heap) (self : addr) (obj : BaseNode) (attrs : JsonAttributes) :
  h !! self = Some obj ->
  set_json_attrs (set_json_attrs h self attrs) self (_json_attrs obj) = h.
Proof.
  intros H. unfold set_json_attrs at 1.
  rewrite (set_json_attrs_lookup _ _ _ _ H). cbn [cls].
  unfold set_json_attrs. rewrite H.
  rewrite list_insert_insert_eq.
  apply list_insert_id. destruct obj; exact H.
Qed.

(** *** The measure of unhandled nodes *)

Lemma filter_length_le {A} (P Q : A -> Prop) `{!forall x, Decision (P x)}
    `{!forall x, Decision (Q x)} (l : list A) :
  (forall x, P x -> Q x) ->
  (length (filter P l) <= length (filter Q l))%nat.
Proof.
  intros HPQ. induction l as [|x l IH]; [reflexivity|].
  rewrite !filter_cons. destruct (decide (P x)) as [HP|HP].
  - destruct (decide (Q x)) as [HQ|HQ]; [cbn; lia|]. exfalso. auto.
  - destruct (decide (Q x)); cbn; lia.
Qed.

Lemma filter_length_lt {A} (P Q : A -> Prop) `{!forall x, Decision (P x)}
    `{!forall x, Decision (Q x)} (l : list A) (a : A) :
  (forall x, P x -> Q x) -> a ∈ l -> Q a -> ~ P a ->
  (length (filter P l) < length (filter Q l))%nat.
Proof.
  intros HPQ Hin HQ HP. induction l as [|x l IH]; [by apply elem_of_nil in Hin|].
  rewrite !filter_cons. apply elem_of_cons in Hin as [<-|Hin].
  - destruct (decide (P a)); [tauto|]. destruct (decide (Q a)); [|tauto].
    cbn. pose proof (filter_length_le P Q l HPQ). lia.
  - specialize (IH Hin). destruct (decide (P x)) as [HPx|HPx].
    + destruct (decide (Q x)) as [HQx|HQx]; [cbn; lia|]. exfalso. auto.
    + destruct (decide (Q x)); cbn; lia.
Qed.

Lemma unhandled_mono (h : heap) (H H' : list addr) :
  H ⊆ H' -> (Measure.unhandled h H' <= Measure.unhandled h H)%nat.
Proof.
  intros Hsub. unfold Measure.unhandled. apply filter_length_le.
  intros x Hx Hin. apply Hx, Hsub, Hin.
Qed.

Lemma unhandled_snoc (h : heap) (H : list addr) (a : addr) :
  (a < length h)%nat -> a ∉ H ->
  (Measure.unhandled h (H ++ [a]) < Measure.unhandled h H)%nat.
Proof.
  intros Hlt Hn. unfold Measure.unhandled. apply filter_length_lt with (a := a).
  - intros x Hx Hin. apply Hx. apply elem_of_app. by left.
  - apply elem_of_seq. lia.
  - exact Hn.
  - intros Hx. apply Hx. apply elem_of_app. right. by apply list_elem_of_singleton.
Qed.

Lemma unhandled_nil (h : heap) : Measure.unhandled h [] = length h.
Proof.
  unfold Measure.unhandled.
  assert (Hall : forall l : list addr, filter (fun a => a ∉ []) l = l).
  { induction l as [|x l IH]; [reflexivity|].
    rewrite filter_cons. destruct (decide (x ∉ [])) as [_|Hx].
    - by rewrite IH.
    - exfalso. apply Hx. apply not_elem_of_nil. }
  rewrite Hall. apply length_seq.
Qed.

(** *** [_has_cycle] returns *)

Lemma has_cycle_fields_returns (rec : addr -> list addr -> option (bool * list addr))
    (H0 : list addr) :
  (forall a H, H0 ⊆ H -> exists b H', rec a H = Some (b, H') /\ H ⊆ H') ->
  forall fields H, H0 ⊆ H ->
    exists b H', has_cycle_fields rec fields H = Some (b, H') /\ H ⊆ H'.
Proof.
  intros Hrec fields. induction fields as [|[field v] fields IH]; intros H Hsub; cbn.
  { exists false, H. split; [reflexivity|set_solver]. }
  destruct v; try (apply IH; exact Hsub).
  destruct (Hrec a H Hsub) as (b & H' & -> & Hsub').
  destruct b.
  - exists true, H'. split; [reflexivity|exact Hsub'].
  - destruct (IH H') as (b & H'' & -> & Hsub''); [set_solver|].
    exists b, H''. split; [reflexivity|set_solver].
Qed.

(** With more fuel than there are unhandled nodes, the walk returns. *)
Lemma has_cycle_returns (h : heap) (fuel : nat) :
  forall self H, (Measure.unhandled h H < fuel)%nat ->
    exists b H', _has_cycle fuel h self H = Some (b, H') /\ H ⊆ H'.
Proof.
  induction fuel as [|fuel IH]; intros self H Hfuel; [lia|].
  cbn [_has_cycle]. case_bool_decide as Hin.
  { exists true, H. split; [reflexivity|set_solver]. }
  destruct (h !! self) as [obj|] eqn:Hself.
  - assert (Hlt : (self < length h)%nat) by (eapply lookup_lt_Some; eauto).
    pose proof (unhandled_snoc h H self Hlt Hin) as Hdec.
    destruct (has_cycle_fields_returns (_has_cycle fuel h) (H ++ [self])) with
      (fields := _json_attrs obj) (H := H ++ [self]) as (b & H' & -> & Hsub).
    + intros a H1 Hsub. apply IH. pose proof (unhandled_mono h _ _ Hsub). lia.
    + set_solver.
    + exists b, H'. split; [reflexivity|set_solver].
  - exists false, (H ++ [self]). split; [reflexivity|set_solver].
Qed.

(** The fuel [has_cycle] hands to the walk is enough. *)
Lemma has_cycle_fuel (h : heap) (self : addr) :
  exists H', _has_cycle (S (length h)) h self [] = Some (has_cycle h self, H').
Proof.
  destruct (has_cycle_returns h (S (length h)) self []) as (b & H' & Heq & _).
  { rewrite unhandled_nil. lia. }
  exists H'. unfold has_cycle. rewrite Heq. reflexivity.
Qed.

Section WithCollaborators.
Variable NodeEncoder_dumps : heap -> addr -> option string.
Variable _get_global_cached_api : result API.

Local Abbreviation validate := (validate NodeEncoder_dumps _get_global_cached_api).
Local Abbreviation json := (json NodeEncoder_dumps).
Local Abbreviation _update_json_attrs_if_valid :=
  (_update_json_attrs_if_valid NodeEncoder_dumps _get_global_cached_api).
Local Abbreviation remove_child := (remove_child NodeEncoder_dumps _get_global_cached_api).

(** *** [_update_json_attrs_if_valid] *)

(** A candidate that validates is installed. *)
Lemma update_commits (h : heap) (self : addr) (obj : BaseNode) (new : JsonAttributes) :
  h !! self = Some obj ->
  validate (set_json_attrs h self new) self = Ok tt ->
  _update_json_attrs_if_valid self new h = (Ok tt, set_json_attrs h self new).
Proof.
  intros H Hv. unfold Core._update_json_attrs_if_valid. rewrite H, Hv. reflexivity.
Qed.

(** A candidate that fails validation is taken out again: the store
    is the one before the call, hence so is the JSON of every node,
    and the error is the one [validate] raised. *)
Lemma update_rolls_back (h : heap) (self : addr) (obj : BaseNode) (new : JsonAttributes)
    (exc : exn) :
  h !! self = Some obj ->
  validate (set_json_attrs h self new) self = Raise exc ->
  _update_json_attrs_if_valid self new h = (Raise exc, h).
Proof.
  intros H Hv. unfold Core._update_json_attrs_if_valid. rewrite H, Hv.
  unfold copy_copy. rewrite (set_json_attrs_restore _ _ _ _ H). reflexivity.
Qed.

(** Whatever happens, the store ends as the old or as the new one. *)
Lemma update_old_or_new (h : heap) (self : addr) (new : JsonAttributes) :
  snd (_update_json_attrs_if_valid self new h) = h \/
  (fst (_update_json_attrs_if_valid self new h) = Ok tt /\
   snd (_update_json_attrs_if_valid self new h) = set_json_attrs h self new).
Proof.
  unfold Core._update_json_attrs_if_valid.
  destruct (h !! self) as [obj|] eqn:H; [|left; reflexivity].
  destruct (validate _ _) as [[]|exc] eqn:Hv.
  - right. split; reflexivity.
  - left. cbn. unfold copy_copy. apply (set_json_attrs_restore _ _ _ _ H).
Qed.

(** *** [remove_child] *)

Lemma is_child_node_of (v : value) (child : addr) :
  is_child v child = true <-> node_of v = Some child.
Proof.
  destruct v; cbn; try (split; discriminate).
  rewrite Nat.eqb_eq. split; congruence.
Qed.

Lemma elem_of_nodes (child : addr) (l : list value) :
  child ∈ omap node_of l <-> Exists (fun e => is_child e child = true) l.
Proof.
  rewrite list_elem_of_omap, Exists_exists.
  split; intros (e & He & Hc); exists e; (split; [exact He|]); by apply is_child_node_of.
Qed.

(** The scan of one list leaves it alone when the child is not in it. *)
Lemma del_children_absent (child : addr) (value : list value) :
  Forall (fun e => is_child e child = false) value ->
  forall i new_attr_list found_child,
    del_children child value i new_attr_list found_child = Ok (found_child, new_attr_list).
Proof.
  induction 1 as [|e value He _ IH]; intros i nal fc; cbn; [reflexivity|].
  rewrite He. apply IH.
Qed.

Lemma del_children_found (child : addr) (value : list value) :
  forall i new_attr_list,
    (exists e, del_children child value i new_attr_list true = Raise e) \/
    (exists l, del_children child value i new_attr_list true = Ok (true, l)).
Proof.
  induction value as [|e value IH]; intros i nal; cbn; [right; eauto|].
  destruct (is_child e child); [|apply IH].
  destruct (i <? length nal)%nat; [apply IH|left; eauto].
Qed.

Lemma del_children_present (child : addr) (value : list value) :
  Exists (fun e => is_child e child = true) value ->
  forall i new_attr_list found_child,
    (exists e, del_children child value i new_attr_list found_child = Raise e) \/
    (exists l, del_children child value i new_attr_list found_child = Ok (true, l)).
Proof.
  induction 1 as [e value He|e value _ IH]; intros i nal fc; cbn.
  - rewrite He. destruct (i <? length nal)%nat; [apply del_children_found|left; eauto].
  - destruct (is_child e child); [|apply IH].
    destruct (i <? length nal)%nat; [apply del_children_found|left; eauto].
Qed.

Lemma remove_child_fields_replaced (child : addr) (d fields : JsonAttributes) :
  forall new_attrs,
    (exists e, remove_child_fields child d fields new_attrs true = Raise e) \/
    (exists a, remove_child_fields child d fields new_attrs true = Ok (a, true)).
Proof.
  induction fields as [|[field v] fields IH]; intros new_attrs; cbn; [right; eauto|].
  destruct (is_child v child).
  { destruct (getattr d field); [apply IH|left; eauto]. }
  destruct v; cbn; try apply IH.
  - destruct (del_children child l 0 l false) as [[[] nl]|e]; [right; eauto|apply IH|left; eauto].
  - destruct (del_children _ _ _ _ _) as [[[] nl]|e]; [right; eauto|apply IH|left; eauto].
Qed.

(** No field holds the child, and no list-valued field contains it:
    nothing is replaced. *)
Lemma remove_child_fields_absent (child : addr) (d fields : JsonAttributes) :
  child ∉ references fields ->
  forall new_attrs replaced,
    remove_child_fields child d fields new_attrs replaced = Ok (new_attrs, replaced).
Proof.
  induction fields as [|[field v] fields IH]; intros Hn new_attrs replaced; cbn; [reflexivity|].
  unfold references in Hn. cbn in Hn. rewrite elem_of_app in Hn.
  assert (Hv : child ∉ omap node_of (as_list v)) by tauto.
  assert (Hr : child ∉ references fields) by (unfold references; tauto).
  rewrite elem_of_nodes in Hv.
  assert (Hc : is_child v child = false).
  { destruct (is_child v child) eqn:E; [|reflexivity]. exfalso. apply Hv.
    destruct v; cbn in E; try discriminate. cbn. by apply Exists_cons_hd. }
  rewrite Hc.
  destruct v; cbn; try (apply IH; exact Hr).
  - rewrite del_children_absent; [apply IH; exact Hr|].
    cbn in Hv. apply Forall_forall. intros e He.
    destruct (is_child e child) eqn:E; [|reflexivity].
    exfalso. apply Hv. apply Exists_exists. eauto.
  - rewrite del_children_absent; [apply IH; exact Hr|].
    apply Forall_forall. intros e He. apply list_elem_of_fmap in He as ([k w] & -> & _).
    reflexivity.
Qed.

(** Some field holds the child or contains it: the scan replaces
    something, or raises. *)
Lemma remove_child_fields_present (child : addr) (d fields : JsonAttributes) :
  child ∈ references fields ->
  forall new_attrs replaced,
    (exists e, remove_child_fields child d fields new_attrs replaced = Raise e) \/
    (exists a, remove_child_fields child d fields new_attrs replaced = Ok (a, true)).
Proof.
  induction fields as [|[field v] fields IH]; intros Hin new_attrs replaced.
  { unfold references in Hin. cbn in Hin. by apply elem_of_nil in Hin. }
  cbn. unfold references in Hin. cbn in Hin. rewrite elem_of_app in Hin.
  destruct (is_child v child) eqn:Hc.
  { destruct (getattr d field); [apply remove_child_fields_replaced|left; eauto]. }
  destruct v; cbn in Hc |- *;
    try (destruct Hin as [Hin|Hin];
         [cbn in Hin; try (by apply elem_of_nil in Hin)|by apply IH]).
  - apply list_elem_of_singleton in Hin. subst a. by rewrite Nat.eqb_refl in Hc.
  - destruct Hin as [Hin|Hin].
    + apply elem_of_nodes in Hin.
      destruct (del_children_present child l Hin 0%nat l false) as [[e ->]|[nl ->]];
        [left; eauto|right; eauto].
    + destruct (del_children child l 0 l false) as [[[] nl]|e];
        [right; eauto|by apply IH|left; eauto].
  - destruct Hin as [Hin|Hin]; [by apply elem_of_nil in Hin|].
    destruct (del_children _ _ _ _ _) as [[[] nl]|e];
      [right; eauto|by apply IH|left; eauto].
Qed.

(** A child that occurs once in a list is taken out of it, and nothing
    else is. *)
Lemma del_children_skip (child : addr) (l1 rest : list value) :
  Forall (fun e => is_child e child = false) l1 ->
  forall i new_attr_list found_child,
    del_children child (l1 ++ rest) i new_attr_list found_child
    = del_children child rest (i + length l1) new_attr_list found_child.
Proof.
  induction 1 as [|e l1 He _ IH]; intros i nal fc; cbn [app del_children length].
  - by rewrite Nat.add_0_r.
  - rewrite He, IH. f_equal. lia.
Qed.

Lemma del_children_once (child : addr) (l1 l2 : list value) :
  Forall (fun e => is_child e child = false) l1 ->
  Forall (fun e => is_child e child = false) l2 ->
  del_children child (l1 ++ VNode child :: l2) 0 (l1 ++ VNode child :: l2) false
  = Ok (true, l1 ++ l2).
Proof.
  intros H1 H2. rewrite del_children_skip by exact H1.
  cbn [del_children is_child Nat.add]. rewrite Nat.eqb_refl.
  rewrite (proj2 (Nat.ltb_lt _ _)) by (rewrite length_app; cbn; lia).
  rewrite del_children_absent by exact H2. do 2 f_equal.
  apply delete_middle.
Qed.

(** A removal that fails validation leaves the store as it was. *)
Lemma remove_child_rolls_back (h : heap) (self child : addr) (obj : BaseNode)
    (new_attrs : JsonAttributes) (exc : exn) :
  h !! self = Some obj ->
  remove_child_fields child (JsonAttributes_defaults (cls obj)) (_json_attrs obj)
    (_json_attrs obj) false = Ok (new_attrs, true) ->
  validate (set_json_attrs h self new_attrs) self = Raise exc ->
  remove_child self child h = (Raise exc, h).
Proof.
  intros H Hf Hv. unfold Core.remove_child. rewrite H, Hf.
  by rewrite (update_rolls_back h self obj new_attrs exc H Hv).
Qed.


End WithCollaborators.


(** C3, at the inputs where the code departs from it.  A list field
    that holds the child twice makes [remove_child] raise [IndexError]
    and remove nothing; with the child at positions 0 and 2 of four
    elements, two elements go: the first occurrence and the last
    element of the list, which is not the child. *)
Theorem remove_child_repeated_child :
  (forall enc api,
     remove_child enc api 0%nat 1%nat Examples.h_twice = (Raise IndexError, Examples.h_twice)) /\
  (exists h',
     remove_child Examples.key_encoder Examples.any_schema 0%nat 1%nat Examples.h_four = (Ok true, h') /\
     (forall obj, h' !! 0%nat = Some obj ->
                  getattr (_json_attrs obj) "parameter" = Some (VList [VNode 2%nat; VNode 1%nat]))).
Proof.
  split.
  - intros enc api. reflexivity.
  - eexists. split; [vm_compute; reflexivity|].
    intros obj Hobj. vm_compute in Hobj. injection Hobj as <-. reflexivity.
Qed.

(** *** [validate] and shared or cyclic references *)

Lemma h_shared_edges_ascend (n m : addr) : edge Examples.h_shared n m -> (n < m)%nat.
Proof.
  intros [Hin _]. unfold children in Hin.
  destruct n as [|[|n]]; cbn in Hin.
  - apply elem_of_cons in Hin as [->|Hin]; [lia|].
    apply list_elem_of_singleton in Hin as ->. lia.
  - by apply elem_of_nil in Hin.
  - by apply elem_of_nil in Hin.
Qed.

Lemma h_shared_acyclic (n : addr) : ~ on_cycle Examples.h_shared n.
Proof.
  assert (Hlt : forall a b, tc (edge Examples.h_shared) a b -> (a < b)%nat).
  { induction 1 as [a b Hab|a b c Hab _ IH].
    - by apply h_shared_edges_ascend.
    - apply h_shared_edges_ascend in Hab. lia. }
  intros Hc. apply Hlt in Hc. lia.
Qed.

Lemma h_list_cycle_cyclic : on_cycle Examples.h_list_cycle 0%nat.
Proof.
  apply tc_l with (y := 1%nat).
  - split; [|by eexists]. cbn. by apply list_elem_of_singleton.
  - apply tc_once. split; [|by eexists]. cbn. by apply list_elem_of_singleton.
Qed.

(** C2, at the inputs where the code departs from it.  With a schema
    that accepts every document: a node whose two scalar fields hold
    the same child lies on no cycle, nor does any node of its store,
    and [validate] raises the cycle error; two nodes that refer to each
    other through list-valued fields form a cycle, and [validate]
    passes. *)
Theorem validate_cycle_error_mismatch :
  ((forall n, ~ on_cycle Examples.h_shared n) /\
   validate Examples.key_encoder Examples.any_schema Examples.h_shared 0%nat
   = Raise (CRIPTNodeCycleError 0%nat)) /\
  (on_cycle Examples.h_list_cycle 0%nat /\
   validate Examples.key_encoder Examples.any_schema Examples.h_list_cycle 0%nat = Ok tt).
Proof.
  split; split.
  - exact h_shared_acyclic.
  - reflexivity.
  - exact h_list_cycle_cyclic.
  - reflexivity.
Qed.

End CoreFacts.

(** ** Theorems: the setters of [Algorithm] and [SoftwareConfiguration] *)

Module SetterFacts.
Import Core.

Section WithCollaborators.
Variable NodeEncoder_dumps : heap -> addr -> option string.
Variable _get_global_cached_api : result API.

Local Abbreviation validate := (validate NodeEncoder_dumps _get_global_cached_api).
Local Abbreviation json := (json NodeEncoder_dumps).

(** A setter of [SoftwareConfiguration] whose candidate fails
    validation leaves the store as it was and passes the error on. *)
Lemma software_configuration_setter_rolls_back (field : string) (self : addr) (new : value)
    (h : heap) (obj : BaseNode) (exc : exn) :
  h !! self = Some obj ->
  validate (set_json_attrs h self (replace (_json_attrs obj) field new)) self = Raise exc ->
  SoftwareConfiguration.set_field NodeEncoder_dumps _get_global_cached_api field self new h
  = (Raise exc, h).
Proof.
  intros H Hv. unfold SoftwareConfiguration.set_field. rewrite H.
  by apply CoreFacts.update_rolls_back with (obj := obj).
Qed.

(** A schema error on the candidate of a valid node means that the two
    documents differ. *)
Lemma schema_error_changes_json (h h' : heap) (self : addr) (detail : string) :
  validate h self = Ok tt ->
  validate h' self = Raise (CRIPTNodeSchemaError detail) ->
  json h' self <> json h self.
Proof.
  unfold Core.validate. intros Hok Hbad Heq. rewrite Heq in Hbad.
  destruct _get_global_cached_api as [api|e]; cbn in *; [|discriminate].
  destruct (json h self) as [j|e]; cbn in *; [|discriminate].
  destruct (_is_node_schema_valid api j) as [b|e]; cbn in *; [|discriminate].
  destruct (has_cycle h self); [discriminate|].
  destruct (has_cycle h' self); discriminate.
Qed.

(** C1, where the code departs from it.  A setter of [Algorithm]
    installs the candidate record and validates, and that is all: when
    the schema rejects the candidate of a node that was valid, the error
    reaches the caller and the node keeps the rejected record, so that
    its JSON is the rejected document and no longer the one from before
    the call. *)
Theorem algorithm_setter_keeps_rejected_record (field : string) (self : addr) (new : value)
    (h : heap) (obj : BaseNode) (detail : string) :
  h !! self = Some obj ->
  validate h self = Ok tt ->
  validate (set_json_attrs h self (replace (_json_attrs obj) field new)) self
  = Raise (CRIPTNodeSchemaError detail) ->
  let out := Algorithm.set_field NodeEncoder_dumps _get_global_cached_api field self new h in
  fst out = Raise (CRIPTNodeSchemaError detail) /\
  snd out = set_json_attrs h self (replace (_json_attrs obj) field new) /\
  json (snd out) self <> json h self.
Proof.
  intros H Hok Hbad out. unfold out, Algorithm.set_field. rewrite H. cbn [fst snd].
  split; [exact Hbad|]. split; [reflexivity|].
  by apply schema_error_changes_json with (detail := detail).
Qed.

End WithCollaborators.

(** [a.key = ""] on the algorithm of [test_local_search], against a
    schema that wants a key: the setter raises, and the key stays
    empty. *)
Lemma algorithm_setter_keeps_rejected_record_witness :
  let out := Algorithm.set_key Examples.key_encoder Examples.nonempty_schema 0%nat (VStr "")
               Examples.h_search in
  fst out = Raise (CRIPTNodeSchemaError "key") /\
  json Examples.key_encoder (snd out) 0%nat = Ok "" /\
  json Examples.key_encoder Examples.h_search 0%nat = Ok "mc_barostat" /\
  SoftwareConfiguration.set_field Examples.key_encoder Examples.nonempty_schema "key" 0%nat
    (VStr "") Examples.h_search = (Raise (CRIPTNodeSchemaError "key"), Examples.h_search).
Proof.
  destruct (algorithm_setter_keeps_rejected_record Examples.key_encoder
              Examples.nonempty_schema "key" 0%nat (VStr "") Examples.h_search
              (Examples.algorithm "mc_barostat" "barostat" [VNode 1%nat; VNode 2%nat])
              "key" eq_refl eq_refl eq_refl) as (Hfst & Hsnd & _).
  split; [exact Hfst|].
  split; [reflexivity|].
  split; reflexivity.
Defined.

End SetterFacts.

(** ** Theorems: the list-valued getters *)

Module GetterFacts.
Import Core ListObjects.

Lemma mutations_frame (l' : loc) (ms : list mutation) :
  forall (ls' : lists) (k : loc), k <> l' -> foldl (mutate l') ls' ms !! k = ls' !! k.
Proof.
  induction ms as [|m ms IH]; intros ls' k Hk; cbn [foldl]; [reflexivity|].
  rewrite IH by exact Hk. unfold mutate. apply list_lookup_alter_ne. congruence.
Qed.

Lemma list_copy_fresh (ls : lists) (l : loc) :
  (l < length ls)%nat -> returns_fresh_copy ls l (list_copy ls l).
Proof.
  intros Hl. destruct (lookup_lt_is_Some_2 ls l Hl) as [elements Hel].
  exists (length ls), (ls ++ [elements]). unfold list_copy. rewrite Hel.
  split; [reflexivity|]. split.
  - rewrite lookup_app_r by lia. by rewrite Nat.sub_diag.
  - intros ms k Hk. rewrite mutations_frame by lia. by apply lookup_app_l.
Qed.

(** C9.  Each of the getters [Algorithm.parameter],
    [Algorithm.citation], [SoftwareConfiguration.algorithms] and
    [SoftwareConfiguration.citation] returns a new list object with
    the elements of the record's list; whatever the caller then does
    to the returned list (append, delete, reorder, ...), the lists the
    attribute record refers to, and the record itself, which holds
    their locations, stay as they were. *)
Theorem getters_return_fresh_copies (ls : lists) (alg : AlgorithmAttributes)
    (sc : SoftwareConfigurationAttributes) :
  ((alg_parameter alg < length ls)%nat ->
   returns_fresh_copy ls (alg_parameter alg) (Algorithm_parameter alg ls)) /\
  ((alg_citation alg < length ls)%nat ->
   returns_fresh_copy ls (alg_citation alg) (Algorithm_citation alg ls)) /\
  ((sc_algorithms sc < length ls)%nat ->
   returns_fresh_copy ls (sc_algorithms sc) (SoftwareConfiguration_algorithms sc ls)) /\
  ((sc_citation sc < length ls)%nat ->
   returns_fresh_copy ls (sc_citation sc) (SoftwareConfiguration_citation sc ls)).
Proof.
  repeat split; apply list_copy_fresh.
Qed.

(** The caller appends to, reverses and empties the list it got from
    [Algorithm.parameter]; the algorithm's own list still holds its two
    parameters. *)
Lemma getters_return_fresh_copies_witness :
  let alg := {| alg_parameter := 0%nat; alg_citation := 1%nat |} in
  let sc := {| sc_algorithms := 2%nat; sc_citation := 3%nat |} in
  (alg_parameter alg < length ls_example)%nat /\
  exists l' ls',
    Algorithm_parameter alg ls_example = Some (l', ls') /\
    foldl (mutate l') ls' [Append (VNode 9%nat); Reverse; DelItem 0%nat; Clear]
      !! alg_parameter alg = Some [VNode 1%nat; VNode 2%nat].
Proof.
  intros alg sc.
  assert (Hlt : (alg_parameter alg < length ls_example)%nat) by (vm_compute; lia).
  split; [exact Hlt|].
  destruct (proj1 (getters_return_fresh_copies ls_example alg sc) Hlt)
    as (l' & ls' & Hget & _ & Hframe).
  exists l', ls'. split; [exact Hget|].
  rewrite Hframe by exact Hlt. reflexivity.
Defined.

End GetterFacts.

(** ** Theorems: [BaseNode._from_json] *)

Module FromJsonFacts.
Import Core.

Lemma is_key_names {B C : Type} (k : string) (d : list (string * B)) (d' : list (string * C)) :
  map fst d = map fst d' -> is_key k d = is_key k d'.
Proof.
  revert d'. induction d as [|[k1 v1] d IH]; intros [|[k2 v2] d'] Heq; try discriminate.
  - reflexivity.
  - cbn in Heq. injection Heq as -> Heq. specialize (IH d' Heq).
    unfold is_key in *. cbn [existsb fst]. by rewrite IH.
Qed.

(** The keywords handed to [JsonAttributes] are the keys of the input
    that are fields of the record, with the values of the input. *)
Lemma dict_get_valid_keywords (json : list (string * value)) (f : string) :
  forall reference_nodes : JsonAttributes,
    dict_get (valid_keywords reference_nodes json) f
    = if is_key f reference_nodes then dict_get json f else None.
Proof.
  induction reference_nodes as [|[key w] rest IH]; [reflexivity|].
  cbn [valid_keywords]. unfold is_key. cbn [existsb fst]. fold (is_key f rest).
  destruct (String.eqb_spec key f) as [->|Hne]; cbn [orb].
  - destruct (dict_get json f) as [v|] eqn:Hj.
    + unfold dict_get. cbn [getattr]. by rewrite String.eqb_refl.
    + rewrite IH. by destruct (is_key f rest).
  - destruct (dict_get json key) as [v|] eqn:Hj; [|exact IH].
    unfold dict_get. cbn [getattr]. apply String.eqb_neq in Hne. rewrite Hne. exact IH.
Qed.

Lemma valid_keywords_are_fields (json : list (string * value)) :
  forall reference_nodes : JsonAttributes,
    Forall (fun kv => is_key (fst kv) reference_nodes = true)
           (valid_keywords reference_nodes json).
Proof.
  induction reference_nodes as [|[key w] rest IH]; [constructor|].
  assert (Hrest : Forall (fun kv : string * value => is_key (fst kv) ((key, w) :: rest) = true)
                         (valid_keywords rest json)).
  { eapply Forall_impl; [exact IH|]. intros kv Hkv. unfold is_key in *. cbn [existsb].
    rewrite Hkv. apply orb_true_r. }
  cbn [valid_keywords]. destruct (dict_get json key); [|exact Hrest].
  constructor; [|exact Hrest]. unfold is_key. cbn. by rewrite String.eqb_refl.
Qed.

Lemma find_none_of_Forall {A} (P : A -> bool) (l : list A) :
  Forall (fun x => P x = false) l -> List.find P l = None.
Proof.
  induction 1 as [|x l Hx _ IH]; [reflexivity|]. cbn. by rewrite Hx.
Qed.

(** For a record with the fields of the class, the candidate takes each
    field from the input where the input has it, else its default. *)
Lemma new_JsonAttributes_of_valid_keywords (c : pyclass) (json : list (string * value))
    (attrs0 : JsonAttributes) :
  map fst attrs0 = map fst (JsonAttributes_defaults c) ->
  new_JsonAttributes c (valid_keywords attrs0 json)
  = Ok (map (fun fd => (fst fd, default (snd fd) (dict_get json (fst fd))))
          (JsonAttributes_defaults c)).
Proof.
  intros Hnames. unfold new_JsonAttributes.
  rewrite find_none_of_Forall.
  - f_equal. apply map_ext_in. intros [f d] Hin. cbn [fst snd]. f_equal.
    rewrite dict_get_valid_keywords. rewrite (is_key_names f _ _ Hnames).
    assert (Hk : is_key f (JsonAttributes_defaults c) = true).
    { unfold is_key. apply existsb_exists. exists (f, d). split; [exact Hin|].
      cbn. apply String.eqb_refl. }
    by rewrite Hk.
  - eapply Forall_impl; [apply valid_keywords_are_fields|].
    intros kv Hkv. cbn beta. rewrite <- (is_key_names _ _ _ Hnames), Hkv. reflexivity.
Qed.

(** A key that is no parameter is refused by a constructor without
    [**kwargs]. *)
Lemma bind_keywords_refuses (params : list (string * option value))
    (json : list (string * value)) (k : string) :
  is_key k json = true -> is_key k params = false ->
  exists k', is_key k' json = true /\ is_key k' params = false /\
             bind_keywords params false json = Raise (TypeError k').
Proof.
  induction json as [|[k1 v1] json IH]; intros Hk Hp; [discriminate|].
  cbn [bind_keywords]. destruct (is_key k1 params) eqn:Hk1.
  - assert (Hk' : is_key k json = true).
    { unfold is_key in Hk. cbn [existsb fst] in Hk. apply orb_true_iff in Hk as [Hk|Hk]; [|exact Hk].
      apply String.eqb_eq in Hk. subst k1. congruence. }
    destruct (IH Hk' Hp) as (k' & Hj & Hq & ->).
    exists k'. split; [|split; [exact Hq|reflexivity]].
    unfold is_key in *. cbn [existsb]. rewrite Hj. apply orb_true_r.
  - exists k1. split; [|split; [exact Hk1|reflexivity]].
    unfold is_key. cbn. by rewrite String.eqb_refl.
Qed.

Lemma set_json_attrs_last (h : heap) (obj : BaseNode) (attrs : JsonAttributes) :
  set_json_attrs (h ++ [obj]) (length h) attrs
  = h ++ [{| cls := cls obj; _json_attrs := attrs |}].
Proof.
  unfold set_json_attrs. rewrite list_lookup_middle by reflexivity.
  replace (length h) with (length h + 0)%nat at 1 by lia.
  by rewrite insert_app_r.
Qed.

Section WithCollaborators.
Variable NodeEncoder_dumps : heap -> addr -> option string.
Variable _get_global_cached_api : result API.

Local Abbreviation validate := (validate NodeEncoder_dumps _get_global_cached_api).
Local Abbreviation construct := (construct NodeEncoder_dumps _get_global_cached_api).
Local Abbreviation _from_json := (_from_json NodeEncoder_dumps _get_global_cached_api).

(** X17.  [_from_json] calls the constructor with
    every key of the input as a keyword argument: a constructor
    without [**kwargs] refuses the call when the input has a key that
    is not one of its parameters, and no node is made.  When the
    constructor succeeds, the record that takes each attribute-record
    field from the input where the input has that key, and from the
    field's default otherwise, is installed in the new node and
    validated as one replace: on success the node holds exactly that
    record, on failure it holds the constructor's record again and the
    error of the validation is passed on. *)
Theorem from_json_passes_all_keys_then_replaces (c : pyclass) (json : list (string * value))
    (h : heap) :
  (init_var_keyword c = false ->
   forall k, is_key k json = true -> is_key k (init_params c) = false ->
   exists k', is_key k' json = true /\ is_key k' (init_params c) = false /\
              _from_json c json h = (Raise (TypeError k'), h)) /\
  (forall attrs0,
     construct c json h = Ok attrs0 ->
     map fst attrs0 = map fst (JsonAttributes_defaults c) ->
     let node := length h in
     let candidate :=
       map (fun fd => (fst fd, default (snd fd) (dict_get json (fst fd))))
         (JsonAttributes_defaults c) in
     let installed := h ++ [{| cls := c; _json_attrs := candidate |}] in
     match validate installed node with
     | Ok _ => _from_json c json h = (Ok node, installed)
     | Raise e => _from_json c json h = (Raise e, h ++ [{| cls := c; _json_attrs := attrs0 |}])
     end).
Proof.
  split.
  - intros Hkw k Hk Hp.
    destruct (bind_keywords_refuses (init_params c) json k Hk Hp) as (k' & Hj & Hq & Hb).
    exists k'. split; [exact Hj|]. split; [exact Hq|].
    unfold Core._from_json, Core.construct. rewrite Hkw, Hb. reflexivity.
  - intros attrs0 Hc Hnames node candidate installed.
    unfold Core._from_json. rewrite Hc.
    rewrite (new_JsonAttributes_of_valid_keywords c json attrs0 Hnames).
    fold candidate. unfold Core._update_json_attrs_if_valid.
    rewrite list_lookup_middle by reflexivity.
    rewrite set_json_attrs_last. cbn [cls _json_attrs]. fold installed. fold node.
    destruct (validate installed node) as [[]|e]; [reflexivity|].
    unfold copy_copy. subst installed node. by rewrite set_json_attrs_last.
Qed.

End WithCollaborators.

(** C8, where the code departs from it.  The input is what a
    serialized [SoftwareConfiguration] looks like.  Were the
    constructor called with just the keys that match its parameters,
    as the claim has it, the node would be built from this input; the
    code passes ["node"] along as well, [SoftwareConfiguration.__init__]
    hands it on to [BaseNode.__init__], which takes no keyword, and
    [_from_json] raises [TypeError] instead of ignoring the key. *)
Lemma from_json_constructor_gets_every_key :
  construct_matching_keys Examples.key_encoder Examples.any_schema
    SoftwareConfiguration.class Examples.json_with_node []
  = Ok [("node", VList [VStr "SoftwareConfiguration"]); ("software", VNone);
        ("algorithms", VList []); ("notes", VStr "n"); ("citation", VList [])] /\
  construct Examples.key_encoder Examples.any_schema
    SoftwareConfiguration.class Examples.json_with_node [] = Raise (TypeError "node") /\
  _from_json Examples.key_encoder Examples.any_schema
    SoftwareConfiguration.class Examples.json_with_node [] = (Raise (TypeError "node"), []).
Proof.
  repeat split.
Qed.

(** An input with parameters only: the constructor succeeds, and the
    record installed afterwards has the default [node], since the input
    has no such key. *)
Lemma from_json_passes_all_keys_then_replaces_witness :
  let json := [("software", VNone); ("notes", VStr "n")] in
  construct Examples.key_encoder Examples.any_schema SoftwareConfiguration.class json []
  = Ok [("node", VList [VStr "SoftwareConfiguration"]); ("software", VNone);
        ("algorithms", VList []); ("notes", VStr "n"); ("citation", VList [])] /\
  _from_json Examples.key_encoder Examples.any_schema SoftwareConfiguration.class json []
  = (Ok 0%nat,
     [{| cls := SoftwareConfiguration.class;
         _json_attrs := [("node", VList []); ("software", VNone); ("algorithms", VList []);
                         ("notes", VStr "n"); ("citation", VList [])] |}]).
Proof.
  intros json. split; [reflexivity|].
  exact (proj2 (from_json_passes_all_keys_then_replaces Examples.key_encoder
                  Examples.any_schema SoftwareConfiguration.class json [])
           _ eq_refl eq_refl).
Defined.

End FromJsonFacts.

(** ** Theorems: [BaseNode.find_children] *)

Module SearchFacts.
Import Core Graph Criteria.

#[local] Arguments Nat.ltb : simpl never.
#[local] Arguments Nat.leb : simpl never.

(** *** The criteria, unfolded *)

Lemma found_in_eq (h : heap) (attr_key : list value) (v : value) :
  found_in h attr_key v = py_in v attr_key || nested_found h attr_key v.
Proof.
  destruct v; try reflexivity.
  cbn [found_in nested_found]. f_equal.
  induction attr_key as [|e attr_key IH]; [reflexivity|].
  cbn [existsb]. rewrite IH. f_equal.
  destruct e; try reflexivity.
  unfold node_satisfies. destruct (h !! a); [|reflexivity].
  unfold satisfies. clear IH.
  induction d as [|[key value] d IHd]; [reflexivity|].
  cbn [forallb fst snd]. rewrite <- IHd. f_equal.
  destruct value; reflexivity.
Qed.

(** *** Counting the found values is the conjunction of the criteria *)

Lemma py_eq_dict (e : value) (d : list (string * value)) :
  py_eq e (VDict d) = true -> is_dict e = true.
Proof. destruct e; cbn; congruence. Qed.

Lemma nested_found_nil (h : heap) (v : value) : nested_found h [] v = false.
Proof. by destruct v. Qed.

Lemma nested_found_cons (h : heap) (e : value) (attr_key : list value) (v : value) :
  nested_found h (e :: attr_key) v
  = match e, v with
    | VNode a, VDict d => node_satisfies h a d
    | _, _ => false
    end || nested_found h attr_key v.
Proof. destruct v; try (by destruct e). Qed.

Lemma nested_found_node (h : heap) (attr_key : list value) (v : value) :
  nested_found h attr_key v = true -> is_dict v = true /\ existsb is_node attr_key = true.
Proof.
  destruct v; try discriminate. cbn. intros H. split; [reflexivity|].
  apply existsb_exists in H as (e & He & Hs). apply existsb_exists.
  exists e. split; [exact He|]. by destruct e.
Qed.

(** On an unmixed list a requested value is counted once at most. *)
Lemma py_in_nested_exclusive (h : heap) (attr_key : list value) (v : value) :
  unmixed attr_key = true -> py_in v attr_key = true -> nested_found h attr_key v = true -> False.
Proof.
  intros Hu Hin Hn. apply nested_found_node in Hn as [Hd Hnode].
  destruct v; try discriminate.
  unfold py_in in Hin. apply existsb_exists in Hin as (e & He & Heq).
  apply py_eq_dict in Heq.
  assert (Hdict : existsb is_dict attr_key = true) by (apply existsb_exists; eauto).
  unfold unmixed in Hu. rewrite Hdict, Hnode in Hu. discriminate.
Qed.

Lemma unmixed_attr_of (h : heap) (n : addr) (key : string) :
  typed h -> unmixed (attr_of h n key) = true.
Proof.
  intros Ht. unfold attr_of. destruct (h !! n) as [obj|] eqn:Hn; [|reflexivity].
  assert (Hrec : typed_record (_json_attrs obj) = true).
  { unfold typed in Ht. rewrite Forall_forall in Ht. apply Ht.
    eapply list_elem_of_lookup_2; eauto. }
  unfold dict_get. induction (_json_attrs obj) as [|[k v] attrs IH]; [reflexivity|].
  cbn in Hrec. apply andb_true_iff in Hrec as [Hv Hrest].
  cbn [getattr]. destruct (String.eqb k key); [exact Hv|by apply IH].
Qed.

Section counting.
Variable h : heap.
Variable find_children0 : addr -> list (string * value) -> option (list addr).
Hypothesis find_children0_spec :
  forall a d r, find_children0 a d = Some r -> r = if node_satisfies h a d then [a] else [].

Lemma or_loop_spec (attr_key : list value) (v : value) (k : nat) :
  or_loop find_children0 attr_key v = Some k ->
  k = if nested_found h attr_key v then 1%nat else 0%nat.
Proof.
  induction attr_key as [|e attr_key IH]; intros H.
  { cbn in H. injection H as <-. by rewrite nested_found_nil. }
  rewrite nested_found_cons.
  destruct e; try (by apply IH).
  destruct v; try (by apply IH).
  cbn [or_loop] in H. destruct (find_children0 a d) as [found|] eqn:Hf; [|discriminate].
  apply find_children0_spec in Hf. destruct (node_satisfies h a d); subst found; cbn in H.
  - by injection H as <-.
  - by apply IH.
Qed.

Lemma count_values_spec (attr_key : list value) :
  unmixed attr_key = true ->
  forall (vs : list value) (acc k : nat),
    count_values find_children0 attr_key vs acc = Some k ->
    exists j, k = (acc + j)%nat /\ (j <= length vs)%nat /\
              (j = length vs <-> forallb (found_in h attr_key) vs = true).
Proof.
  intros Hu. induction vs as [|v vs IH]; intros acc k H.
  { cbn in H. injection H as <-. exists 0%nat. cbn. split; [lia|]. split; [lia|tauto]. }
  cbn [count_values] in H.
  destruct (or_loop find_children0 attr_key v) as [o|] eqn:Ho; [|discriminate].
  apply or_loop_spec in Ho.
  apply IH in H as (j & -> & Hj & Hiff).
  cbn [forallb]. simpl length.
  pose proof (found_in_eq h attr_key v) as Hf.
  pose proof (py_in_nested_exclusive h attr_key v Hu) as Hex.
  destruct (py_in v attr_key), (nested_found h attr_key v); subst o; cbn [orb] in Hf;
    rewrite Hf; cbn [andb].
  - exfalso. by apply Hex.
  - exists (S j). rewrite <- Hiff. split; [lia|]. split; lia.
  - exists (S j). rewrite <- Hiff. split; [lia|]. split; lia.
  - exists j. split; [lia|]. split; [lia|]. split; [lia|discriminate].
Qed.

Lemma is_attr_present_spec (n : addr) (key : string) (v : value) (b : bool) :
  typed h ->
  is_attr_present find_children0 h n key v = Some b ->
  b = forallb (found_in h (attr_of h n key)) (as_list v).
Proof.
  intros Ht H. unfold is_attr_present in H. fold (attr_of h n key) in H.
  destruct (count_values _ _ _ _) as [k|] eqn:Hc; [|discriminate].
  injection H as <-.
  apply count_values_spec in Hc as (j & -> & Hj & Hiff); [|by apply unmixed_attr_of].
  cbn [Nat.add]. destruct (forallb _ _).
  - apply Nat.eqb_eq. by apply Hiff.
  - apply Nat.eqb_neq. intros Heq. apply Hiff in Heq. discriminate.
Qed.

Lemma count_attrs_spec (n : addr) :
  typed h ->
  forall (search_attr : list (string * value)) (acc k : nat),
    count_attrs find_children0 h n search_attr acc = Some k ->
    exists j, k = (acc + j)%nat /\ (j <= length search_attr)%nat /\
              (j = length search_attr <-> satisfies h n search_attr = true).
Proof.
  intros Ht. induction search_attr as [|[key v] search_attr IH]; intros acc k H.
  { cbn in H. injection H as <-. exists 0%nat. cbn. split; [lia|]. split; [lia|tauto]. }
  cbn [count_attrs] in H.
  destruct (is_attr_present _ _ _ _ _) as [b|] eqn:Hp; [|discriminate].
  apply is_attr_present_spec in Hp; [|exact Ht].
  unfold satisfies. cbn [forallb fst snd]. simpl length. fold (satisfies h n search_attr).
  rewrite <- Hp.
  destruct b; apply IH in H as (j & -> & Hj & Hiff); cbn [andb].
  - exists (S j). rewrite <- Hiff. split; [lia|]. split; lia.
  - exists j. split; [lia|]. split; [lia|]. split; [lia|discriminate].
Qed.

(** The test [found_attr == len(search_attr)] of [find_children]. *)
Lemma self_match_spec (n : addr) (search_attr : list (string * value)) (found_attr : nat) :
  typed h ->
  count_attrs find_children0 h n search_attr 0 = Some found_attr ->
  Nat.eqb found_attr (length search_attr) = satisfies h n search_attr.
Proof.
  intros Ht H. apply count_attrs_spec in H as (j & -> & Hj & Hiff); [|exact Ht].
  cbn [Nat.add]. destruct (satisfies h n search_attr).
  - apply Nat.eqb_eq. by apply Hiff.
  - apply Nat.eqb_neq. intros Heq. apply Hiff in Heq. discriminate.
Qed.

End counting.

(** A search of depth 0 from a fresh [handled_nodes] is the self-match
    of the node. *)
Lemma find_children_depth0 (h : heap) (fuel : nat) :
  typed h ->
  forall a d r,
    find_children fuel h a d 0 [] = Some r ->
    fst r = if node_satisfies h a d then [a] else [].
Proof.
  intros Ht. induction fuel as [|fuel IH]; intros a d r H; [discriminate|].
  cbn [find_children] in H. unfold node_satisfies.
  destruct (h !! a) as [obj|]; [|by injection H as <-].
  rewrite bool_decide_eq_false_2 in H by apply not_elem_of_nil.
  destruct (count_attrs _ _ _ _ _) as [found_attr|] eqn:Hc; [|discriminate].
  apply self_match_spec in Hc; [|clear Hc|exact Ht].
  - rewrite Hc in H. change (0 =? 0) with true in H. cbv iota in H. by injection H as <-.
  - intros a' d' r' Hr. destruct (find_children fuel h a' d' 0 []) as [r0|] eqn:Hr0;
      [|discriminate].
    cbn in Hr. injection Hr as <-. by apply IH.
Qed.

(** *** More fuel changes nothing *)

Lemma find_children_S (fuel : nat) (h : heap) (self : addr)
    (search_attr : list (string * value)) (search_depth : Z) (handled_nodes : list addr) :
  find_children (S fuel) h self search_attr search_depth handled_nodes
  = match h !! self with
    | None => Some ([], handled_nodes)
    | Some obj =>
        if bool_decide (self ∈ handled_nodes) then Some ([], handled_nodes)
        else
          match count_attrs (fun a v => fst <$> find_children fuel h a v 0 [])
                  h self search_attr 0 with
          | None => None
          | Some found_attr =>
              let found_children :=
                if Nat.eqb found_attr (length search_attr) then [self] else [] in
              if search_depth =? 0 then Some (found_children, handled_nodes ++ [self])
              else
                descend_fields
                  (fun v handled_nodes =>
                     find_children fuel h v search_attr (search_depth - 1) handled_nodes)
                  (_json_attrs obj) found_children (handled_nodes ++ [self])
          end
    end.
Proof. reflexivity. Qed.

Section mono.
Variables fc fc' : addr -> list (string * value) -> option (list addr).
Hypothesis fc_le : forall a d r, fc a d = Some r -> fc' a d = Some r.

Lemma or_loop_mono (attr_key : list value) (v : value) (k : nat) :
  or_loop fc attr_key v = Some k -> or_loop fc' attr_key v = Some k.
Proof.
  induction attr_key as [|e attr_key IH]; [done|].
  destruct e; try exact IH. destruct v; try exact IH.
  cbn [or_loop]. destruct (fc a d) as [found|] eqn:Hf; [|discriminate].
  rewrite (fc_le _ _ _ Hf). destruct (0 <? length found)%nat; [done|exact IH].
Qed.

Lemma count_values_mono (attr_key vs : list value) :
  forall acc k, count_values fc attr_key vs acc = Some k ->
                count_values fc' attr_key vs acc = Some k.
Proof.
  induction vs as [|v vs IH]; intros acc k; [done|].
  cbn [count_values]. destruct (or_loop fc attr_key v) as [o|] eqn:Ho; [|discriminate].
  rewrite (or_loop_mono _ _ _ Ho). apply IH.
Qed.

Lemma is_attr_present_mono (h : heap) (n : addr) (key : string) (v : value) (b : bool) :
  is_attr_present fc h n key v = Some b -> is_attr_present fc' h n key v = Some b.
Proof.
  unfold is_attr_present. destruct (count_values fc _ _ _) as [k|] eqn:Hc; [|discriminate].
  by rewrite (count_values_mono _ _ _ _ Hc).
Qed.

Lemma count_attrs_mono (h : heap) (n : addr) (search_attr : list (string * value)) :
  forall acc k, count_attrs fc h n search_attr acc = Some k ->
                count_attrs fc' h n search_attr acc = Some k.
Proof.
  induction search_attr as [|[key v] search_attr IH]; intros acc k; [done|].
  cbn [count_attrs]. destruct (is_attr_present fc h n key v) as [b|] eqn:Hp; [|discriminate].
  rewrite (is_attr_present_mono _ _ _ _ _ Hp). destruct b; apply IH.
Qed.
End mono.

Section mono_descend.
Variables rec rec' : addr -> list addr -> option (list addr * list addr).
Hypothesis rec_le : forall a H r, rec a H = Some r -> rec' a H = Some r.

Lemma descend_values_mono (vs : list value) :
  forall found H r, descend_values rec vs found H = Some r ->
                    descend_values rec' vs found H = Some r.
Proof.
  induction vs as [|v vs IH]; intros found H r; [done|].
  destruct v; try apply IH.
  cbn [descend_values]. destruct (rec a H) as [[f H1]|] eqn:Hr; [|discriminate].
  rewrite (rec_le _ _ _ Hr). apply IH.
Qed.

Lemma descend_fields_mono (fields : JsonAttributes) :
  forall found H r, descend_fields rec fields found H = Some r ->
                    descend_fields rec' fields found H = Some r.
Proof.
  induction fields as [|[field v] fields IH]; intros found H r; [done|].
  cbn [descend_fields]. destruct (descend_values rec _ _ _) as [[f H1]|] eqn:Hd; [|discriminate].
  rewrite (descend_values_mono _ _ _ _ Hd). apply IH.
Qed.
End mono_descend.

Lemma find_children_mono_S (h : heap) (fuel : nat) :
  forall self search_attr search_depth H r,
    find_children fuel h self search_attr search_depth H = Some r ->
    find_children (S fuel) h self search_attr search_depth H = Some r.
Proof.
  induction fuel as [|fuel IH]; intros self search_attr d H r Hr; [discriminate|].
  rewrite find_children_S in Hr. rewrite find_children_S.
  destruct (h !! self) as [obj|]; [|exact Hr].
  case_bool_decide; [exact Hr|].
  destruct (count_attrs _ _ _ _ _) as [found_attr|] eqn:Hc; [|discriminate].
  erewrite count_attrs_mono; [| |exact Hc].
  - cbv zeta in Hr |- *. destruct (d =? 0); [exact Hr|].
    eapply descend_fields_mono; [|exact Hr].
    intros a H1 r1. apply IH.
  - intros a d' r'. cbn beta.
    destruct (find_children fuel h a d' 0 []) as [r0|] eqn:Hr0; [|discriminate].
    by rewrite (IH _ _ _ _ _ Hr0).
Qed.

Lemma find_children_mono (h : heap) (fuel fuel' : nat) (self : addr)
    (search_attr : list (string * value)) (search_depth : Z) (H : list addr)
    (r : list addr * list addr) :
  (fuel <= fuel')%nat ->
  find_children fuel h self search_attr search_depth H = Some r ->
  find_children fuel' h self search_attr search_depth H = Some r.
Proof.
  induction 1 as [|fuel' _ IH]; [done|]. intros Hr. by apply find_children_mono_S, IH.
Qed.

(** *** With enough fuel the search returns *)

Lemma list_sum_cons (x : nat) (l : list nat) : list_sum (x :: l) = (x + list_sum l)%nat.
Proof. reflexivity. Qed.

Lemma list_sum_in (x : nat) (l : list nat) : x ∈ l -> (x <= list_sum l)%nat.
Proof.
  induction l as [|y l IH]; intros Hin; [by apply elem_of_nil in Hin|].
  rewrite list_sum_cons. apply elem_of_cons in Hin as [->|Hin]; [lia|].
  specialize (IH Hin). lia.
Qed.

Lemma value_size_in (kv : string * value) (search_attr : list (string * value)) :
  kv ∈ search_attr -> (Measure.value_size (snd kv) <= Measure.criteria_size search_attr)%nat.
Proof.
  intros Hin. unfold Measure.criteria_size. apply list_sum_in.
  apply list_elem_of_In. apply (in_map (fun kv => Measure.value_size (snd kv))).
  by apply list_elem_of_In.
Qed.

Lemma dict_size_in (d : list (string * value)) (v : value) :
  VDict d ∈ as_list v -> (Measure.criteria_size d < Measure.value_size v)%nat.
Proof.
  destruct v; cbn [as_list]; intros Hin;
    try (apply list_elem_of_singleton in Hin; discriminate).
  - cbn [Measure.value_size].
    assert (Measure.value_size (VDict d) <= list_sum (map Measure.value_size l))%nat.
    { apply list_sum_in. apply list_elem_of_In, in_map, list_elem_of_In, Hin. }
    cbn [Measure.value_size] in *. unfold Measure.criteria_size. lia.
  - apply list_elem_of_singleton in Hin. injection Hin as ->.
    cbn [Measure.value_size]. unfold Measure.criteria_size. lia.
Qed.

Section returns.
Variable fc : addr -> list (string * value) -> option (list addr).

Lemma or_loop_returns (attr_key : list value) (v : value) :
  (forall a d, v = VDict d -> is_Some (fc a d)) ->
  is_Some (or_loop fc attr_key v).
Proof.
  intros Hfc. induction attr_key as [|e attr_key IH]; [by eexists|].
  destruct e; try exact IH. destruct v; try exact IH.
  cbn [or_loop]. destruct (Hfc a d eq_refl) as [found ->].
  destruct (0 <? length found)%nat; [by eexists|exact IH].
Qed.

Lemma count_values_returns (attr_key vs : list value) :
  (forall v a d, v ∈ vs -> v = VDict d -> is_Some (fc a d)) ->
  forall acc, is_Some (count_values fc attr_key vs acc).
Proof.
  induction vs as [|v vs IH]; intros Hfc acc; [by eexists|].
  cbn [count_values].
  destruct (or_loop_returns attr_key v) as [o ->].
  { intros a d Hv. apply (Hfc v a d); [by left|exact Hv]. }
  apply IH. intros v' a d Hin. apply Hfc. by right.
Qed.

Lemma count_attrs_returns (h : heap) (n : addr) (search_attr : list (string * value)) :
  (forall a d, (Measure.criteria_size d < Measure.criteria_size search_attr)%nat ->
               is_Some (fc a d)) ->
  forall acc, is_Some (count_attrs fc h n search_attr acc).
Proof.
  intros Hfc.
  assert (Hall : forall kv a d, kv ∈ search_attr -> VDict d ∈ as_list (snd kv) ->
                                is_Some (fc a d)).
  { intros kv a d Hkv Hd. apply Hfc. apply value_size_in in Hkv. apply dict_size_in in Hd. lia. }
  clear Hfc. induction search_attr as [|[key v] search_attr IH]; intros acc; [by eexists|].
  cbn [count_attrs]. unfold is_attr_present.
  destruct (count_values_returns
              (as_list match h !! n with
                       | Some obj => default VNone (dict_get (_json_attrs obj) key)
                       | None => VNone
                       end) (as_list v)) with (acc := 0%nat) as [k ->].
  { intros v' a d Hin ->. apply (Hall (key, v)); [by left|exact Hin]. }
  destruct (Nat.eqb k (length (as_list v))); apply IH; intros kv a d Hin; apply Hall; by right.
Qed.
End returns.

Section returns_descend.
Variable rec : addr -> list addr -> option (list addr * list addr).
Variable H0 : list addr.
Hypothesis rec_returns :
  forall a H, H0 ⊆ H -> exists f H', rec a H = Some (f, H') /\ H ⊆ H'.

Lemma descend_values_returns (vs : list value) :
  forall found H, H0 ⊆ H ->
    exists f H', descend_values rec vs found H = Some (f, H') /\ H ⊆ H'.
Proof.
  induction vs as [|v vs IH]; intros found H Hsub.
  { exists found, H. split; [reflexivity|set_solver]. }
  destruct v; try (apply IH; exact Hsub).
  cbn [descend_values]. destruct (rec_returns a H Hsub) as (f & H1 & -> & Hsub1).
  destruct (IH (found ++ f) H1) as (f' & H' & -> & Hsub'); [set_solver|].
  exists f', H'. split; [reflexivity|set_solver].
Qed.

Lemma descend_fields_returns (fields : JsonAttributes) :
  forall found H, H0 ⊆ H ->
    exists f H', descend_fields rec fields found H = Some (f, H') /\ H ⊆ H'.
Proof.
  induction fields as [|[field v] fields IH]; intros found H Hsub.
  { exists found, H. split; [reflexivity|set_solver]. }
  cbn [descend_fields].
  destruct (descend_values_returns (as_list v) found H Hsub) as (f & H1 & -> & Hsub1).
  destruct (IH f H1) as (f' & H' & -> & Hsub'); [set_solver|].
  exists f', H'. split; [reflexivity|set_solver].
Qed.
End returns_descend.

(** The fuel a search needs: the size of the criteria for the nested
    self-matches, and one unit per node not handled yet, unless the
    search does not descend. *)
Lemma find_children_returns (h : heap) (fuel : nat) :
  forall self search_attr search_depth H,
    (Measure.criteria_size search_attr
     + (if (search_depth =? 0)%Z then 0 else Measure.unhandled h H) < fuel)%nat ->
    exists f H', find_children fuel h self search_attr search_depth H = Some (f, H') /\ H ⊆ H'.
Proof.
  induction fuel as [|fuel IH]; intros self search_attr d H Hfuel; [lia|].
  rewrite find_children_S.
  destruct (h !! self) as [obj|] eqn:Hself;
    [|exists [], H; split; [reflexivity|set_solver]].
  case_bool_decide as Hin; [exists [], H; split; [reflexivity|set_solver]|].
  destruct (count_attrs_returns (fun a v => fst <$> find_children fuel h a v 0 [])
              h self search_attr) with (acc := 0%nat) as [found_attr ->].
  { intros a d' Hsize.
    destruct (IH a d' 0 []) as (f & H' & -> & _); [cbn; lia|]. by eexists. }
  cbv zeta. destruct (d =? 0) eqn:Hd.
  { eexists _, _. split; [reflexivity|set_solver]. }
  assert (Hlt : (self < length h)%nat) by (eapply lookup_lt_Some; eauto).
  pose proof (CoreFacts.unhandled_snoc h H self Hlt Hin) as Hdec.
  destruct (descend_fields_returns
              (fun v handled_nodes =>
                 find_children fuel h v search_attr (d - 1) handled_nodes)
              (H ++ [self])) with
    (fields := _json_attrs obj)
    (found := if Nat.eqb found_attr (length search_attr) then [self] else [])
    (H := H ++ [self]) as (f & H' & -> & Hsub).
  - intros a H1 Hsub. apply IH.
    pose proof (CoreFacts.unhandled_mono h _ _ Hsub).
    destruct (d - 1 =? 0); lia.
  - set_solver.
  - exists f, H'. split; [reflexivity|set_solver].
Qed.

(** *** Distances *)

Lemma near_refl (h : heap) (d : Z) (n : addr) : near h d n n.
Proof.
  unfold near. destruct (d <? 0); [apply rtc_refl|].
  exists 0%nat. split; [lia|constructor].
Qed.

Lemma near_step (h : heap) (d : Z) (n a m : addr) :
  d <> 0 -> edge h n a -> near h (d - 1) a m -> near h d n m.
Proof.
  intros Hd He. unfold near.
  destruct (d <? 0) eqn:E.
  - apply Z.ltb_lt in E. rewrite (proj2 (Z.ltb_lt (d - 1) 0)) by lia.
    intros Hr. by eapply rtc_l.
  - apply Z.ltb_ge in E. rewrite (proj2 (Z.ltb_ge (d - 1) 0)) by lia.
    intros (i & Hi & Hn). exists (S i). split; [lia|]. by eapply nsteps_l.
Qed.

Lemma near_reachable (h : heap) (d : Z) (n m : addr) : near h d n m -> reachable h n m.
Proof.
  unfold near. destruct (d <? 0); [done|].
  intros (i & _ & Hn). by eapply rtc_nsteps_2.
Qed.

Lemma edge_source (h : heap) (n m : addr) : edge h n m -> is_Some (h !! n).
Proof.
  intros [Hin _]. unfold children in Hin.
  destruct (h !! n); [by eexists|by apply elem_of_nil in Hin].
Qed.

Lemma reachable_in_heap (h : heap) (a n : addr) :
  reachable h a n -> is_Some (h !! n) -> is_Some (h !! a).
Proof.
  intros Hr Hn. apply rtc_inv in Hr as [->|(y & He & _)]; [exact Hn|].
  by eapply edge_source.
Qed.

Lemma elem_of_references (attrs : JsonAttributes) (a : addr) :
  a ∈ references attrs <->
  exists fv, fv ∈ attrs /\ a ∈ omap node_of (as_list (snd fv)).
Proof.
  unfold references. rewrite list_elem_of_In, in_flat_map.
  split; intros (fv & Hfv & Ha); exists fv; by rewrite ?list_elem_of_In in *.
Qed.

(** *** Composing stretches of the search *)

Section walk.
Variable h : heap.
Variable search_attr : list (string * value).

Local Abbreviation walk_inv := (Walk.walk_inv h search_attr).
Local Abbreviation sat := (fun n : addr => satisfies h n search_attr = true).

Lemma walk_inv_nil (d : Z) (H : list addr) : walk_inv [] d H [] H.
Proof.
  exists []. rewrite app_nil_r.
  split; [reflexivity|]. split; [constructor|].
  split; [intros n Hn; by apply elem_of_nil in Hn|].
  split; [reflexivity|]. split; [reflexivity|].
  split; [intros n Hn; by apply elem_of_nil in Hn|].
  split; [intros _ n m Hn; by apply elem_of_nil in Hn|].
  intros a Ha. by apply elem_of_nil in Ha.
Qed.

Lemma walk_inv_app (cs1 cs2 : list addr) (d : Z) (H F1 H1 F2 H2 : list addr) :
  walk_inv cs1 d H F1 H1 -> walk_inv cs2 d H1 F2 H2 ->
  walk_inv (cs1 ++ cs2) d H (F1 ++ F2) H2.
Proof.
  intros (new1 & -> & Hnd1 & Hdis1 & Hsub1 & Hf1 & Hnear1 & Hcl1 & Hc1)
         (new2 & -> & Hnd2 & Hdis2 & Hsub2 & Hf2 & Hnear2 & Hcl2 & Hc2).
  exists (new1 ++ new2). split; [by rewrite app_assoc|].
  split.
  { apply NoDup_app. split; [exact Hnd1|]. split; [|exact Hnd2].
    intros n Hn1 Hn2. apply (Hdis2 n Hn2). apply elem_of_app. by right. }
  split.
  { intros n Hn HH. apply elem_of_app in Hn as [Hn|Hn].
    - by apply (Hdis1 n).
    - apply (Hdis2 n Hn). apply elem_of_app. by left. }
  split; [by apply sublist_app|].
  split.
  { intros Ht. rewrite filter_app. by rewrite <- Hf1, <- Hf2. }
  split.
  { intros n Hn. apply elem_of_app in Hn as [Hn|Hn].
    - destruct (Hnear1 n Hn) as (Hs & a & Ha & Hna). split; [exact Hs|].
      exists a. split; [|exact Hna]. apply elem_of_app. by left.
    - destruct (Hnear2 n Hn) as (Hs & a & Ha & Hna). split; [exact Hs|].
      exists a. split; [|exact Hna]. apply elem_of_app. by right. }
  split.
  { intros Hd n m Hn He. apply elem_of_app in Hn as [Hn|Hn].
    - apply elem_of_app. left. by apply (Hcl1 Hd n m).
    - by apply (Hcl2 Hd n m). }
  intros a Ha Hs. apply elem_of_app in Ha as [Ha|Ha].
  - apply elem_of_app. left. by apply Hc1.
  - by apply Hc2.
Qed.

(** A node that is handled already, or is no object, is passed over. *)
Lemma walk_inv_skip (self : addr) (d : Z) (H : list addr) :
  self ∈ H \/ h !! self = None -> walk_inv [self] d H [] H.
Proof.
  intros Hskip. exists []. rewrite app_nil_r.
  split; [reflexivity|]. split; [constructor|].
  split; [intros n Hn; by apply elem_of_nil in Hn|].
  split; [reflexivity|]. split; [reflexivity|].
  split; [intros n Hn; by apply elem_of_nil in Hn|].
  split; [intros _ n m Hn; by apply elem_of_nil in Hn|].
  intros a Ha Hs. apply list_elem_of_singleton in Ha as ->.
  destruct Hskip as [Hin|Hnone]; [exact Hin|]. rewrite Hnone in Hs. by destruct Hs.
Qed.

Lemma filter_sat_self (self : addr) (m : bool) (new : list addr) :
  m = satisfies h self search_attr ->
  filter sat (self :: new) = (if m then [self] else []) ++ filter sat new.
Proof.
  intros ->. rewrite filter_cons. destruct (decide (sat self)) as [Hs|Hs]; cbn beta in Hs.
  - by rewrite Hs.
  - by destruct (satisfies h self search_attr).
Qed.

(** Depth 0: the node is matched and nothing else happens. *)
Lemma walk_inv_leaf (self : addr) (H : list addr) (m : bool) :
  self ∉ H -> is_Some (h !! self) ->
  (typed h -> m = satisfies h self search_attr) ->
  walk_inv [self] 0 H (if m then [self] else []) (H ++ [self]).
Proof.
  intros Hn Hs Hm. exists [self]. split; [reflexivity|].
  split; [apply NoDup_singleton|].
  split; [intros n Hin; by apply list_elem_of_singleton in Hin as ->|].
  split; [destruct m; [reflexivity|apply sublist_nil_l]|].
  split; [intros Ht; rewrite (filter_sat_self self m []) by auto; by rewrite app_nil_r|].
  split.
  { intros n Hin. apply list_elem_of_singleton in Hin as ->. split; [exact Hs|].
    exists self. split; [by apply list_elem_of_singleton|apply near_refl]. }
  split; [lia|].
  intros a Ha _. apply list_elem_of_singleton in Ha as ->.
  apply elem_of_app. right. by apply list_elem_of_singleton.
Qed.

(** Depth other than 0: the node is matched, then its children are
    searched one level less deep. *)
Lemma walk_inv_node (self : addr) (d : Z) (H F H' : list addr) (m : bool) :
  self ∉ H -> is_Some (h !! self) -> d <> 0 ->
  (typed h -> m = satisfies h self search_attr) ->
  walk_inv (children h self) (d - 1) (H ++ [self]) F H' ->
  walk_inv [self] d H ((if m then [self] else []) ++ F) H'.
Proof.
  intros Hn Hs Hd Hm (new & -> & Hnd & Hdis & Hsub & Hf & Hnear & Hcl & Hc).
  assert (Hself : self ∉ new).
  { intros Hin. apply (Hdis self Hin). apply elem_of_app. right.
    by apply list_elem_of_singleton. }
  exists (self :: new). split; [by rewrite <- app_assoc|].
  split; [by apply NoDup_cons|].
  split.
  { intros n Hin HH. apply elem_of_cons in Hin as [->|Hin]; [by apply Hn|].
    apply (Hdis n Hin). apply elem_of_app. by left. }
  split.
  { destruct m; cbn [app]; [by apply sublist_skip|by apply sublist_cons]. }
  split.
  { intros Ht. rewrite (filter_sat_self self m new) by auto. by rewrite <- Hf. }
  split.
  { intros n Hin. apply elem_of_cons in Hin as [->|Hin].
    - split; [exact Hs|]. exists self. split; [by apply list_elem_of_singleton|apply near_refl].
    - destruct (Hnear n Hin) as (Hsn & a & Ha & Hna). split; [exact Hsn|].
      exists self. split; [by apply list_elem_of_singleton|].
      apply near_step with (a := a); [exact Hd| |exact Hna].
      split; [exact Ha|]. eapply reachable_in_heap; [|exact Hsn]. by eapply near_reachable. }
  split.
  { intros Hneg n m' Hin He. apply elem_of_cons in Hin as [->|Hin].
    - destruct He as [Hch Hsm]. by apply Hc.
    - apply (Hcl ltac:(lia) n m' Hin He). }
  intros a Ha _. apply list_elem_of_singleton in Ha as ->.
  apply elem_of_app. left. apply elem_of_app. right. by apply list_elem_of_singleton.
Qed.

(** Two candidate lists with the same members are as good as each other. *)
Lemma walk_inv_candidates (cs cs' : list addr) (d : Z) (H F H' : list addr) :
  (forall a, a ∈ cs <-> a ∈ cs') -> walk_inv cs d H F H' -> walk_inv cs' d H F H'.
Proof.
  intros Heq (new & ? & ? & ? & ? & ? & Hnear & ? & Hc).
  exists new. repeat (split; [assumption|]). split; [|split; [assumption|]].
  - intros n Hin. destruct (Hnear n Hin) as (Hs & a & Ha & Hna). split; [exact Hs|].
    exists a. split; [by apply Heq|exact Hna].
  - intros a Ha. apply Hc. by apply Heq.
Qed.

Section loops.
Variable rec : addr -> list addr -> option (list addr * list addr).
Variable d : Z.
Hypothesis rec_inv :
  forall a H f H', rec a H = Some (f, H') -> walk_inv [a] d H f H'.

Lemma descend_values_inv (vs : list value) :
  forall found H f' H',
    descend_values rec vs found H = Some (f', H') ->
    exists F, f' = found ++ F /\ walk_inv (omap node_of vs) d H F H'.
Proof.
  induction vs as [|v vs IH]; intros found H f' H' Hd.
  { cbn in Hd. injection Hd as <- <-. exists []. split; [by rewrite app_nil_r|apply walk_inv_nil]. }
  destruct v; try (apply IH in Hd; exact Hd).
  cbn [descend_values] in Hd. destruct (rec a H) as [[f H1]|] eqn:Hr; [|discriminate].
  apply rec_inv in Hr. apply IH in Hd as (F & -> & Hw).
  exists (f ++ F). split; [by rewrite app_assoc|].
  change (omap node_of (VNode a :: vs)) with ([a] ++ omap node_of vs).
  by eapply walk_inv_app.
Qed.

Lemma descend_fields_inv (fields : JsonAttributes) :
  forall found H f' H',
    descend_fields rec fields found H = Some (f', H') ->
    exists F, f' = found ++ F /\ walk_inv (references fields) d H F H'.
Proof.
  induction fields as [|[field v] fields IH]; intros found H f' H' Hd.
  { cbn in Hd. injection Hd as <- <-. exists []. split; [by rewrite app_nil_r|apply walk_inv_nil]. }
  cbn [descend_fields] in Hd.
  destruct (descend_values rec (as_list v) found H) as [[f1 H1]|] eqn:Hv; [|discriminate].
  apply descend_values_inv in Hv as (F1 & -> & Hw1).
  apply IH in Hd as (F2 & -> & Hw2).
  exists (F1 ++ F2). split; [by rewrite app_assoc|].
  change (references ((field, v) :: fields))
    with (omap node_of (as_list v) ++ references fields).
  by eapply walk_inv_app.
Qed.
End loops.

(** Every call of [find_children] that returns is such a stretch,
    started from the receiver alone. *)
Lemma find_children_inv (fuel : nat) :
  forall self d H f H',
    find_children fuel h self search_attr d H = Some (f, H') ->
    walk_inv [self] d H f H'.
Proof.
  induction fuel as [|fuel IH]; intros self d H f H' Hr; [discriminate|].
  rewrite find_children_S in Hr.
  destruct (h !! self) as [obj|] eqn:Hself.
  2:{ injection Hr as <- <-. apply walk_inv_skip. by right. }
  case_bool_decide as Hin.
  { injection Hr as <- <-. apply walk_inv_skip. by left. }
  destruct (count_attrs _ _ _ _ _) as [found_attr|] eqn:Hc; [|discriminate].
  assert (Hm : typed h -> Nat.eqb found_attr (length search_attr) = satisfies h self search_attr).
  { intros Ht. eapply self_match_spec; [|exact Ht|exact Hc].
    intros a d' r Hfc. cbn beta in Hfc.
    destruct (find_children fuel h a d' 0 []) as [r0|] eqn:Hr0; [|discriminate].
    injection Hfc as <-. by eapply find_children_depth0. }
  cbv zeta in Hr. destruct (d =? 0) eqn:Hd.
  - apply Z.eqb_eq in Hd as ->. injection Hr as <- <-.
    apply walk_inv_leaf; [exact Hin|by eexists|exact Hm].
  - apply Z.eqb_neq in Hd.
    apply descend_fields_inv with (d := d - 1) in Hr as (F & -> & Hw).
    + apply walk_inv_node; [exact Hin|by eexists|exact Hd|exact Hm|].
      unfold children. by rewrite Hself.
    + intros a H1 f1 H1' Ha. by apply IH.
Qed.

End walk.

(** *** The search as a whole *)

Lemma unhandled_le_length (h : heap) (H : list addr) :
  (Measure.unhandled h H <= length h)%nat.
Proof.
  rewrite <- (CoreFacts.unhandled_nil h). apply CoreFacts.unhandled_mono.
  intros x Hx. by apply elem_of_nil in Hx.
Qed.

(** With the fuel of the statement every search returns, always the
    same result, and the result is a stretch of the search. *)
Lemma find_children_total (h : heap) (self : addr) (search_attr : list (string * value))
    (d : Z) (H : list addr) :
  exists found H',
    (forall fuel, (Measure.criteria_size search_attr + length h < fuel)%nat ->
       find_children fuel h self search_attr d H = Some (found, H')) /\
    Walk.walk_inv h search_attr [self] d H found H'.
Proof.
  destruct (find_children_returns h (S (Measure.criteria_size search_attr + length h))
              self search_attr d H) as (f & H' & Hr & _).
  { pose proof (unhandled_le_length h H). destruct (d =? 0); lia. }
  exists f, H'. split.
  - intros fuel Hfuel. eapply find_children_mono; [|exact Hr]. lia.
  - eapply find_children_inv. exact Hr.
Qed.

(** C4.  On every store, cyclic or not, for every receiver, criteria,
    depth and list of nodes handled so far, [find_children] returns
    (any fuel above the stated bound gives the same result).  The call
    appends to the handled list the nodes it visits: no node twice, and
    none that was handled before.  The found nodes are among the
    visited ones, in the order of the visits, each once. *)
Theorem find_children_terminates_visits_once (h : heap) (self : addr)
    (search_attr : list (string * value)) (search_depth : Z) (handled_nodes : list addr) :
  exists found visited,
    (forall fuel, (Measure.criteria_size search_attr + length h < fuel)%nat ->
       find_children fuel h self search_attr search_depth handled_nodes
       = Some (found, handled_nodes ++ visited)) /\
    NoDup visited /\
    (forall n, n ∈ visited -> n ∉ handled_nodes) /\
    found `sublist_of` visited /\
    NoDup found.
Proof.
  destruct (find_children_total h self search_attr search_depth handled_nodes)
    as (found & H' & Hr & new & -> & Hnd & Hdis & Hsub & _).
  exists found, new. split; [exact Hr|]. split; [exact Hnd|]. split; [exact Hdis|].
  split; [exact Hsub|]. by eapply sublist_NoDup.
Qed.

(** The nodes an unbounded search from a fresh handled list visits are
    the nodes of the subgraph rooted at the receiver. *)
Lemma unbounded_walk_reachable (h : heap) (search_attr : list (string * value))
    (self : addr) (d : Z) (found H' : list addr) :
  d < 0 -> is_Some (h !! self) ->
  Walk.walk_inv h search_attr [self] d [] found H' ->
  forall n, n ∈ H' <-> reachable h self n.
Proof.
  intros Hd Hs (new & -> & _ & _ & _ & _ & Hnear & Hcl & Hc) n. cbn [app].
  split.
  - intros Hn. destruct (Hnear n Hn) as (_ & a & Ha & Hna).
    apply list_elem_of_singleton in Ha as ->. by eapply near_reachable.
  - revert n. apply rtc_ind_r.
    + apply (Hc self); [by apply list_elem_of_singleton|exact Hs].
    + intros x y _ Hxy Hx. by apply (Hcl Hd x y).
Qed.

(** The search with the default depth finds the nodes of the subgraph
    that satisfy the criteria, on a store with typed fields. *)
Lemma find_children_finds_satisfying (h : heap) (self : addr)
    (search_attr : list (string * value)) :
  typed h -> is_Some (h !! self) ->
  exists found handled,
    (forall fuel, (Measure.criteria_size search_attr + length h < fuel)%nat ->
       find_children fuel h self search_attr (-1) [] = Some (found, handled)) /\
    NoDup found /\
    (forall n, n ∈ found <-> reachable h self n /\ satisfies h n search_attr = true).
Proof.
  intros Ht Hs.
  destruct (find_children_total h self search_attr (-1) []) as (found & H' & Hr & Hw).
  exists found, H'. split; [exact Hr|].
  pose proof (unbounded_walk_reachable h search_attr self (-1) found H' ltac:(lia) Hs Hw)
    as Hreach.
  destruct Hw as (new & -> & Hnd & _ & Hsub & Hf & _). cbn [app] in Hreach.
  split; [by eapply sublist_NoDup|].
  intros n. rewrite (Hf Ht), list_elem_of_filter, Hreach. tauto.
Qed.

(** *** Negative depths *)

Section ext.
Variables rec rec' : addr -> list addr -> option (list addr * list addr).
Hypothesis rec_eq : forall a H, rec a H = rec' a H.

Lemma descend_values_ext (vs : list value) :
  forall found H, descend_values rec vs found H = descend_values rec' vs found H.
Proof.
  induction vs as [|v vs IH]; intros found H; [done|].
  destruct v; try apply IH.
  cbn [descend_values]. rewrite rec_eq. destruct (rec' a H) as [[f H1]|]; [apply IH|done].
Qed.

Lemma descend_fields_ext (fields : JsonAttributes) :
  forall found H, descend_fields rec fields found H = descend_fields rec' fields found H.
Proof.
  induction fields as [|[field v] fields IH]; intros found H; [done|].
  cbn [descend_fields]. rewrite descend_values_ext.
  destruct (descend_values rec' _ _ _) as [[f H1]|]; [apply IH|done].
Qed.
End ext.

(** All negative depths are one: the descent never meets depth 0. *)
Lemma find_children_negative (h : heap) (search_attr : list (string * value)) (fuel : nat) :
  forall self d H, d < 0 ->
    find_children fuel h self search_attr d H = find_children fuel h self search_attr (-1) H.
Proof.
  induction fuel as [|fuel IH]; intros self d H Hd; [done|].
  rewrite !find_children_S.
  destruct (h !! self) as [obj|]; [|done].
  case_bool_decide; [done|].
  destruct (count_attrs _ _ _ _ _) as [found_attr|]; [|done]. cbv zeta.
  rewrite (proj2 (Z.eqb_neq d 0)) by lia. change (-1 =? 0) with false. cbv iota.
  apply descend_fields_ext. intros a H1.
  rewrite (IH a (d - 1)) by lia. symmetry. apply IH. lia.
Qed.

(** *** Depth 0 and the nested criteria *)

Lemma find_children_0 (h : heap) (search_attr : list (string * value)) (fuel : nat)
    (self : addr) (H : list addr) (r : list addr * list addr) :
  find_children fuel h self search_attr 0 H = Some r ->
  is_Some (h !! self) -> self ∉ H ->
  (fst r = [self] \/ fst r = []) /\ snd r = H ++ [self].
Proof.
  destruct fuel as [|fuel]; [done|]. rewrite find_children_S.
  intros Hr [obj Hs] Hn. rewrite Hs in Hr.
  rewrite bool_decide_eq_false_2 in Hr by exact Hn.
  destruct (count_attrs _ _ _ _ _) as [found_attr|]; [|done].
  cbv zeta in Hr. change (0 =? 0) with true in Hr. cbv iota in Hr.
  injection Hr as <-. cbn [fst snd]. split; [|done].
  destruct (Nat.eqb _ _); auto.
Qed.

(** The nested test of [is_attr_present]: the dict counts when some
    node among the elements, searched to depth 0 from a fresh handled
    list, returns itself, having visited nothing but itself. *)
Lemma nested_check_is_self_match (h : heap) (fuel : nat) (d : list (string * value)) :
  forall (attr_key : list value) (k : nat),
    or_loop (fun a v => fst <$> find_children fuel h a v 0 []) attr_key (VDict d) = Some k ->
    (k = 1%nat <->
     exists a, VNode a ∈ attr_key /\ find_children fuel h a d 0 [] = Some ([a], [a])) /\
    (k = 0%nat \/ k = 1%nat).
Proof.
  induction attr_key as [|e attr_key IH]; intros k Hk.
  { cbn in Hk. injection Hk as <-. split; [|by left]. split; [done|].
    intros (a & Ha & _). by apply elem_of_nil in Ha. }
  assert (Hother : (forall a, e <> VNode a) ->
            or_loop (fun a v => fst <$> find_children fuel h a v 0 []) attr_key (VDict d)
            = Some k ->
            (k = 1%nat <->
             exists a, VNode a ∈ e :: attr_key /\
                       find_children fuel h a d 0 [] = Some ([a], [a])) /\
            (k = 0%nat \/ k = 1%nat)).
  { intros He Hk'. destruct (IH k Hk') as [Hiff Hor]. split; [|exact Hor].
    rewrite Hiff. split; intros (a & Ha & Hf); exists a; (split; [|exact Hf]).
    - by right.
    - apply elem_of_cons in Ha as [Ha|Ha]; [|exact Ha]. symmetry in Ha. by apply He in Ha. }
  destruct e; try (apply Hother; [intros a'; discriminate|exact Hk]).
  cbn [or_loop] in Hk.
  destruct (find_children fuel h a d 0 []) as [[f H']|] eqn:Hf; [|done].
  cbn [fmap option_fmap option_map fst] in Hk.
  destruct (h !! a) as [obj|] eqn:Ha.
  - destruct (find_children_0 h d fuel a [] (f, H') Hf ltac:(by eexists)
                ltac:(apply not_elem_of_nil)) as [[Hfst|Hfst] Hsnd];
      cbn [fst snd app] in Hfst, Hsnd; subst f H'.
    + cbn in Hk. injection Hk as <-. split; [|by right]. split; [|done].
      intros _. exists a. split; [by left|exact Hf].
    + cbn in Hk. destruct (IH k Hk) as [Hiff Hor]. split; [|exact Hor].
      rewrite Hiff. split; intros (a' & Ha' & Hf'); exists a'; (split; [|exact Hf']).
      * by right.
      * apply elem_of_cons in Ha' as [Heq|Ha']; [|exact Ha'].
        injection Heq as ->. rewrite Hf in Hf'. discriminate.
  - destruct fuel as [|fuel']; [done|]. rewrite find_children_S, Ha in Hf.
    injection Hf as <- <-. cbn in Hk.
    destruct (IH k Hk) as [Hiff Hor]. split; [|exact Hor].
    rewrite Hiff. split; intros (a' & Ha' & Hf'); exists a'; (split; [|exact Hf']).
    + by right.
    + apply elem_of_cons in Ha' as [Heq|Ha']; [|exact Ha'].
      injection Heq as ->. rewrite find_children_S, Ha in Hf'. discriminate.
Qed.

(** *** Forests: the search reaches every node within its depth *)

Lemma descend_values_nodes (rec : addr -> list addr -> option (list addr * list addr))
    (vs : list value) :
  forall found H,
    descend_values rec vs found H = Walk.descend_nodes rec (omap node_of vs) found H.
Proof.
  induction vs as [|v vs IH]; intros found H; [done|].
  destruct v; try apply IH.
  cbn [descend_values]. change (omap node_of (VNode a :: vs)) with (a :: omap node_of vs).
  cbn [Walk.descend_nodes]. destruct (rec a H) as [[f H1]|]; [apply IH|done].
Qed.

Lemma descend_nodes_app (rec : addr -> list addr -> option (list addr * list addr))
    (cs1 cs2 : list addr) :
  forall found H,
    Walk.descend_nodes rec (cs1 ++ cs2) found H
    = match Walk.descend_nodes rec cs1 found H with
      | Some (f, H1) => Walk.descend_nodes rec cs2 f H1
      | None => None
      end.
Proof.
  induction cs1 as [|a cs1 IH]; intros found H; [done|].
  cbn [app Walk.descend_nodes]. destruct (rec a H) as [[f H1]|]; [apply IH|done].
Qed.

Lemma descend_fields_nodes (rec : addr -> list addr -> option (list addr * list addr))
    (fields : JsonAttributes) :
  forall found H,
    descend_fields rec fields found H = Walk.descend_nodes rec (references fields) found H.
Proof.
  induction fields as [|[field v] fields IH]; intros found H; [done|].
  cbn [descend_fields].
  change (references ((field, v) :: fields))
    with (omap node_of (as_list v) ++ references fields).
  rewrite descend_nodes_app, descend_values_nodes.
  destruct (Walk.descend_nodes rec _ found H) as [[f H1]|]; [apply IH|done].
Qed.

Lemma within_reachable (h : heap) (k : nat) (n m : addr) : within h k n m -> reachable h n m.
Proof. intros (i & _ & Hn). by eapply rtc_nsteps_2. Qed.

Lemma within_inv (h : heap) (k : nat) (n m : addr) :
  within h k n m ->
  m = n \/ exists c j, k = S j /\ edge h n c /\ within h j c m.
Proof.
  intros (i & Hi & Hn). inversion Hn as [|i' x c z He Hrest]; subst; [by left|].
  right. destruct k as [|j]; [lia|]. exists c, j. split; [done|]. split; [done|].
  exists i'. split; [lia|done].
Qed.

Lemma within_refl (h : heap) (k : nat) (n : addr) : within h k n n.
Proof. exists 0%nat. split; [lia|constructor]. Qed.

Lemma within_step (h : heap) (k : nat) (n c m : addr) :
  edge h n c -> within h k c m -> within h (S k) n m.
Proof.
  intros He (i & Hi & Hn). exists (S i). split; [lia|]. by eapply nsteps_l.
Qed.

(** In a forest two different children of a node have no descendant
    in common. *)
Lemma forest_disjoint (h : heap) (p c c' m : addr) :
  forest h -> edge h p c -> edge h p c' -> c <> c' ->
  reachable h c m -> reachable h c' m -> False.
Proof.
  intros [Huniq Hacyc] Hc Hc' Hne Hr. revert m Hr.
  apply (rtc_ind_r (fun m => reachable h c' m -> False)).
  - intros Hr'. apply rtc_inv_r in Hr' as [Heq|(y & Hy & He)]; [by apply Hne|].
    assert (y = p) by (by eapply Huniq). subst y.
    apply (Hacyc c'). eapply tc_rtc_l; [exact Hy|]. by apply tc_once.
  - intros y m Hy He IH Hr'.
    apply rtc_inv_r in Hr' as [Heq|(y' & Hy' & He')].
    + subst m. assert (y = p) by (by eapply Huniq). subst y.
      apply (Hacyc c). eapply tc_rtc_l; [exact Hy|]. by apply tc_once.
    + assert (y' = y) by (by eapply Huniq). subst y'. by apply IH.
Qed.

Section lower.
Variable h : heap.
Variable search_attr : list (string * value).
Hypothesis h_forest : forest h.

Section lower_loop.
Variable rec : addr -> list addr -> option (list addr * list addr).
Variable k : nat.
Variable d : Z.
Variable p : addr.
Hypothesis rec_inv :
  forall a H f H', rec a H = Some (f, H') -> Walk.walk_inv h search_attr [a] d H f H'.
Hypothesis rec_lower :
  forall a H f H', rec a H = Some (f, H') -> is_Some (h !! a) ->
                   (forall m, within h k a m -> m ∉ H) ->
                   forall m, within h k a m -> m ∈ H'.

Lemma descend_nodes_lower (cs : list addr) :
  forall found H f' H',
    Walk.descend_nodes rec cs found H = Some (f', H') ->
    (forall c, c ∈ cs -> c ∈ children h p) ->
    (forall c, c ∈ cs -> is_Some (h !! c) ->
               (forall m, within h k c m -> m ∉ H) \/ (forall m, within h k c m -> m ∈ H)) ->
    H ⊆ H' /\
    (forall c, c ∈ cs -> is_Some (h !! c) -> forall m, within h k c m -> m ∈ H').
Proof.
  induction cs as [|c cs IH]; intros found H f' H' Hd Hch Hpre.
  { cbn in Hd. injection Hd as <- <-. split; [done|].
    intros c Hc. by apply elem_of_nil in Hc. }
  cbn [Walk.descend_nodes] in Hd.
  destruct (rec c H) as [[f1 H1]|] eqn:Hr; [|done].
  pose proof (rec_inv _ _ _ _ Hr) as (new & -> & _ & _ & _ & _ & Hnear & _ & _).
  assert (Hhead : is_Some (h !! c) -> forall m, within h k c m -> m ∈ H ++ new).
  { intros Hs. destruct (Hpre c ltac:(by left) Hs) as [Hout|Hin].
    - by apply (rec_lower _ _ _ _ Hr Hs).
    - intros m Hm. apply elem_of_app. left. by apply Hin. }
  destruct (IH (found ++ f1) (H ++ new) f' H' Hd) as [Hsub Hrest].
  { intros c' Hc'. apply Hch. by right. }
  { intros c' Hc' Hs'. destruct (decide (c' = c)) as [->|Hne].
    { right. by apply Hhead. }
    destruct (Hpre c' ltac:(by right) Hs') as [Hout|Hin].
    - left. intros m Hm Hin. apply elem_of_app in Hin as [Hin|Hin]; [by apply (Hout m)|].
      destruct (Hnear m Hin) as (Hsm & a & Ha & Hna).
      apply list_elem_of_singleton in Ha as ->.
      apply near_reachable in Hna.
      apply (forest_disjoint h p c c' m h_forest); [| |done|exact Hna|by eapply within_reachable].
      + split; [apply Hch; by left|]. by eapply reachable_in_heap.
      + split; [apply Hch; by right|exact Hs'].
    - right. intros m Hm. apply elem_of_app. left. by apply Hin. }
  split.
  { intros x Hx. apply Hsub. apply elem_of_app. by left. }
  intros c' Hc' Hs' m Hm. apply elem_of_cons in Hc' as [->|Hc'].
  - apply Hsub. by apply Hhead.
  - by apply (Hrest c').
Qed.
End lower_loop.

(** In a forest a search of depth [d >= 0] started where nothing within
    [d] steps is handled yet handles every node within [d] steps. *)
Lemma find_children_lower (fuel : nat) :
  forall self d H f H',
    0 <= d ->
    find_children fuel h self search_attr d H = Some (f, H') ->
    is_Some (h !! self) ->
    (forall m, within h (Z.to_nat d) self m -> m ∉ H) ->
    forall m, within h (Z.to_nat d) self m -> m ∈ H'.
Proof.
  induction fuel as [|fuel IH]; intros self d H f H' Hd Hr [obj Hs] Hpre m Hm; [done|].
  rewrite find_children_S, Hs in Hr.
  assert (Hn : self ∉ H) by (apply Hpre, within_refl).
  rewrite bool_decide_eq_false_2 in Hr by exact Hn.
  destruct (count_attrs _ _ _ _ _) as [found_attr|]; [|done]. cbv zeta in Hr.
  destruct (d =? 0) eqn:Hd0.
  { apply Z.eqb_eq in Hd0 as ->. injection Hr as <- <-.
    apply within_inv in Hm as [->|(c & j & Hj & _)]; [|done].
    apply elem_of_app. right. by apply list_elem_of_singleton. }
  apply Z.eqb_neq in Hd0. rewrite descend_fields_nodes in Hr.
  assert (Hk : Z.to_nat d = S (Z.to_nat (d - 1))) by lia.
  rewrite Hk in Hm, Hpre.
  destruct (descend_nodes_lower
              (fun v handled_nodes => find_children fuel h v search_attr (d - 1) handled_nodes)
              (Z.to_nat (d - 1)) (d - 1) self) with
    (cs := references (_json_attrs obj))
    (found := if Nat.eqb found_attr (length search_attr) then [self] else [])
    (H := H ++ [self]) (f' := f) (H' := H') as [Hsub Hall].
  - intros a H1 f1 H1' Ha. by eapply find_children_inv.
  - intros a H1 f1 H1' Ha. apply IH with (f := f1); [lia|exact Ha].
  - exact Hr.
  - intros c Hc. unfold children. by rewrite Hs.
  - intros c Hc Hsc. left. intros m' Hm' Hin.
    assert (Hedge : edge h self c) by (split; [unfold children; by rewrite Hs|exact Hsc]).
    apply elem_of_app in Hin as [Hin|Hin].
    + apply (Hpre m'); [|exact Hin]. by eapply within_step.
    + apply list_elem_of_singleton in Hin as ->.
      destruct h_forest as [_ Hacyc]. apply (Hacyc self).
      eapply tc_rtc_r; [by apply tc_once|]. by eapply within_reachable.
  - apply within_inv in Hm as [->|(c & j & Hj & He & Hw)].
    + apply Hsub. apply elem_of_app. right. by apply list_elem_of_singleton.
    + injection Hj as <-. apply (Hall c); [|by destruct He|exact Hw].
      destruct He as [Hc _]. unfold children in Hc. by rewrite Hs in Hc.
Qed.

End lower.

(** *** The claims about the search *)

(** C5, where the code departs from it.  The node at address 0 holds,
    in one list, a dict and a node that both answer to the first
    requested value.  [is_attr_present] counts that value twice, once
    for [v in attr_key] and once for the nested search, although its
    comments say that every requested value adds one at most; the count
    reaches the number of requested values, and the node is returned
    although its field has nothing for the second requested value.  The
    same happens with an [Algorithm] whose [parameter] list holds the
    dict and the node. *)
Lemma find_children_counts_a_value_twice :
  (forall fuel, (7 < fuel)%nat ->
     find_children fuel Examples.h_mixed 0%nat Examples.crit_mixed (-1) []
     = Some ([0%nat], [0%nat; 1%nat])) /\
  satisfies Examples.h_mixed 0%nat Examples.crit_mixed = false /\
  (forall fuel, (7 < fuel)%nat ->
     find_children fuel Examples.h_mixed_algorithm 0%nat Examples.crit_mixed_parameter (-1) []
     = Some ([0%nat], [0%nat; 1%nat])) /\
  satisfies Examples.h_mixed_algorithm 0%nat Examples.crit_mixed_parameter = false.
Proof.
  split; [|split; [reflexivity|split; [|reflexivity]]];
    intros fuel Hfuel; apply find_children_mono with (fuel := 8%nat); try lia; reflexivity.
Qed.

(** X16.  On a store whose list-valued fields do not hold dicts and
    nodes side by side, [find_children] with the default depth
    returns, each once, the nodes of the subgraph rooted at the
    receiver (the receiver included) that satisfy all criteria: every
    requested key, every requested value of a key, a value being found
    when one element of the field has it.  On the store of
    [test_local_search]: the key ["damping_time"] finds [[p2]]; the two
    nested parameter criteria find [[a]]; a third, unmatched one
    finds nothing. *)
Theorem find_children_returns_satisfying_nodes :
  (forall (h : heap) (self : addr) (search_attr : list (string * value)),
     typed h -> is_Some (h !! self) ->
     exists found handled,
       (forall fuel, (Measure.criteria_size search_attr + length h < fuel)%nat ->
          find_children fuel h self search_attr (-1) [] = Some (found, handled)) /\
       NoDup found /\
       (forall n, n ∈ found <-> reachable h self n /\ satisfies h n search_attr = true)) /\
  (forall fuel, (4 < fuel)%nat ->
     fst <$> find_children fuel Examples.h_search 0%nat Examples.crit_damping (-1) []
     = Some [2%nat]) /\
  (forall fuel, (8 < fuel)%nat ->
     fst <$> find_children fuel Examples.h_search 0%nat Examples.crit_both (-1) []
     = Some [0%nat]) /\
  (forall fuel, (10 < fuel)%nat ->
     fst <$> find_children fuel Examples.h_search 0%nat Examples.crit_third (-1) []
     = Some []).
Proof.
  split; [exact find_children_finds_satisfying|].
  split; [|split]; intros fuel Hfuel.
  - rewrite (find_children_mono _ 5%nat fuel _ _ _ _ ([2%nat], [0%nat; 1%nat; 2%nat]));
      [reflexivity|lia|reflexivity].
  - rewrite (find_children_mono _ 9%nat fuel _ _ _ _ ([0%nat], [0%nat; 1%nat; 2%nat]));
      [reflexivity|lia|reflexivity].
  - rewrite (find_children_mono _ 11%nat fuel _ _ _ _ ([], [0%nat; 1%nat; 2%nat]));
      [reflexivity|lia|reflexivity].
Qed.

Lemma h_search_typed : typed Examples.h_search.
Proof. repeat constructor. Defined.

(** The store of [test_local_search] has typed fields, and the search
    for the two nested parameter criteria finds what satisfies them. *)
Lemma find_children_returns_satisfying_nodes_witness :
  typed Examples.h_search /\
  is_Some (Examples.h_search !! 0%nat) /\
  exists found handled,
    (forall fuel, (Measure.criteria_size Examples.crit_both + length Examples.h_search
                   < fuel)%nat ->
       find_children fuel Examples.h_search 0%nat Examples.crit_both (-1) []
       = Some (found, handled)) /\
    NoDup found /\
    (forall n, n ∈ found <->
               reachable Examples.h_search 0%nat n /\
               satisfies Examples.h_search n Examples.crit_both = true).
Proof.
  split; [exact h_search_typed|].
  split; [by eexists|].
  exact (proj1 find_children_returns_satisfying_nodes Examples.h_search 0%nat
           Examples.crit_both h_search_typed (ex_intro _ _ eq_refl)).
Defined.

(** The receiver of a search: its match is the same at every depth,
    and a depth other than 0 goes on with its children, one level
    down. *)
Lemma find_children_receiver (h : heap) (self : addr) (search_attr : list (string * value))
    (H : list addr) :
  is_Some (h !! self) -> self ∉ H ->
  exists m : bool,
    (forall fuel, (Measure.criteria_size search_attr + length h < fuel)%nat ->
       find_children fuel h self search_attr 0 H
       = Some (if m then [self] else [], H ++ [self])) /\
    (typed h -> m = satisfies h self search_attr) /\
    (forall d, d <> 0 ->
       exists F H',
         (forall fuel, (Measure.criteria_size search_attr + length h < fuel)%nat ->
            find_children fuel h self search_attr d H
            = Some ((if m then [self] else []) ++ F, H')) /\
         Walk.walk_inv h search_attr (children h self) (d - 1) (H ++ [self]) F H').
Proof.
  intros [obj Hs] Hn.
  destruct (find_children_total h self search_attr 0 H) as (f0 & H0 & Hr0 & _).
  pose proof (Hr0 _ (Nat.lt_succ_diag_r _)) as E0.
  rewrite find_children_S, Hs in E0. rewrite bool_decide_eq_false_2 in E0 by exact Hn.
  destruct (count_attrs _ _ _ _ _) as [found_attr|] eqn:Hc; [|done].
  cbv zeta in E0. change (0 =? 0) with true in E0. cbv iota in E0. injection E0 as <- <-.
  exists (Nat.eqb found_attr (length search_attr)).
  split; [exact Hr0|]. split.
  - intros Ht. eapply self_match_spec; [|exact Ht|exact Hc].
    intros a d' r Hfc. cbn beta in Hfc.
    destruct (find_children _ h a d' 0 []) as [r0|] eqn:Hr; [|discriminate].
    injection Hfc as <-. by eapply find_children_depth0.
  - intros d Hd.
    destruct (find_children_total h self search_attr d H) as (fd & Hd' & Hrd & _).
    pose proof (Hrd _ (Nat.lt_succ_diag_r _)) as Ed.
    rewrite find_children_S, Hs in Ed. rewrite bool_decide_eq_false_2 in Ed by exact Hn.
    rewrite Hc in Ed. cbv zeta in Ed. rewrite (proj2 (Z.eqb_neq d 0)) in Ed by exact Hd.
    apply (descend_fields_inv h search_attr _ (d - 1)) in Ed as (F & -> & Hw).
    + exists F, Hd'. split; [exact Hrd|]. unfold children. by rewrite Hs.
    + intros a H2 f2 H2' Ha. by eapply find_children_inv.
Qed.



Lemma h_chain_forest : forest Examples.h_chain.
Proof.
  assert (Hedge : forall n m, edge Examples.h_chain n m -> m = S n).
  { intros n m [Hin _]. unfold children in Hin.
    destruct n as [|[|[|[|n]]]]; cbn in Hin;
      try (by apply elem_of_nil in Hin);
      by apply list_elem_of_singleton in Hin. }
  split.
  - intros p1 p2 m H1 H2. apply Hedge in H1, H2. lia.
  - assert (Hlt : forall a b, tc (edge Examples.h_chain) a b -> (a < b)%nat).
    { induction 1 as [a b Hab|a b c Hab _ IH]; apply Hedge in Hab; lia. }
    intros n Hc. apply Hlt in Hc. lia.
Qed.


End SearchFacts.

(** ** Further properties: records, setters and getters *)

Module RecordFacts.
Import Core Accessors.

Lemma getattr_is_key (attrs : JsonAttributes) (f : string) :
  is_key f attrs = true <-> is_Some (getattr attrs f).
Proof.
  unfold is_key. induction attrs as [|[k w] attrs IH]; cbn [existsb getattr fst].
  - split; [discriminate|intros [x Hx]; discriminate].
  - destruct (String.eqb k f); cbn [orb]; [split; [by eexists|done]|exact IH].
Qed.

Lemma getattr_replace_eq (attrs : JsonAttributes) (f : string) (v : value) :
  is_key f attrs = true -> getattr (replace attrs f v) f = Some v.
Proof.
  unfold is_key. induction attrs as [|[k w] attrs IH]; cbn [existsb replace fst]; [discriminate|].
  destruct (String.eqb k f) eqn:E; cbn [orb getattr]; rewrite E; [done|exact IH].
Qed.

Lemma getattr_replace_ne (attrs : JsonAttributes) (f g : string) (v : value) :
  g <> f -> getattr (replace attrs f v) g = getattr attrs g.
Proof.
  intros Hne. induction attrs as [|[k w] attrs IH]; cbn [replace]; [done|].
  destruct (String.eqb_spec k f) as [->|Hkf]; cbn [getattr].
  - apply String.eqb_neq in Hne. rewrite String.eqb_sym in Hne. by rewrite Hne.
  - by rewrite IH.
Qed.

Lemma replace_names (attrs : JsonAttributes) (f : string) (v : value) :
  map fst (replace attrs f v) = map fst attrs.
Proof.
  induction attrs as [|[k w] attrs IH]; cbn [replace]; [done|].
  destruct (String.eqb k f); cbn [map fst]; [done|by rewrite IH].
Qed.

Lemma replace_middle (pre post : JsonAttributes) (f : string) (w v : value) :
  is_key f pre = false ->
  replace (pre ++ (f, w) :: post) f v = pre ++ (f, v) :: post.
Proof.
  unfold is_key. induction pre as [|[k x] pre IH]; cbn [existsb app replace fst]; intros H.
  - by rewrite String.eqb_refl.
  - apply orb_false_iff in H as [Hk Hpre]. rewrite Hk. by rewrite IH.
Qed.

Lemma get_field_set (h : heap) (self : addr) (obj : BaseNode) (attrs : JsonAttributes)
    (g : string) :
  h !! self = Some obj ->
  get_field g self (set_json_attrs h self attrs) = getattr attrs g.
Proof.
  intros H. unfold get_field. by rewrite (CoreFacts.set_json_attrs_lookup _ _ _ _ H).
Qed.

Section WithCollaborators.
Variable NodeEncoder_dumps : heap -> addr -> option string.
Variable _get_global_cached_api : result API.

Local Abbreviation validate := (validate NodeEncoder_dumps _get_global_cached_api).
Local Abbreviation _update_json_attrs_if_valid :=
  (_update_json_attrs_if_valid NodeEncoder_dumps _get_global_cached_api).

(** X1.  Replacing the record of a node of the store is all or
    nothing: if the candidate validates it is installed and the call
    returns; if validation raises, the call raises that same exception
    and the store is the one from before the call.  Either way no
    other node changes and the store keeps its size. *)
Theorem update_is_atomic (h : heap) (self : addr) (obj : BaseNode) (new : JsonAttributes) :
  h !! self = Some obj ->
  let out := _update_json_attrs_if_valid self new h in
  (validate (set_json_attrs h self new) self = Ok tt ->
   out = (Ok tt, set_json_attrs h self new)) /\
  (forall exc, validate (set_json_attrs h self new) self = Raise exc ->
               out = (Raise exc, h)) /\
  (forall a, a <> self -> snd out !! a = h !! a) /\
  length (snd out) = length h.
Proof.
  intros H out.
  split; [by apply CoreFacts.update_commits with (obj := obj)|].
  split; [intros exc; by apply CoreFacts.update_rolls_back with (obj := obj)|].
  destruct (CoreFacts.update_old_or_new NodeEncoder_dumps _get_global_cached_api h self new)
    as [Hold|[_ Hnew]]; fold out in Hold || fold out in Hnew.
  - rewrite Hold. split; [done|done].
  - rewrite Hnew. split.
    + intros a Ha. by apply CoreFacts.set_json_attrs_other.
    + apply CoreFacts.set_json_attrs_length.
Qed.



End WithCollaborators.

Lemma update_is_atomic_witness :
  _update_json_attrs_if_valid Examples.key_encoder Examples.nonempty_schema 0%nat
    (replace (_json_attrs (Examples.algorithm "mc_barostat" "barostat"
                             [VNode 1%nat; VNode 2%nat])) "key" (VStr ""))
    Examples.h_search
  = (Raise (CRIPTNodeSchemaError "key"), Examples.h_search).
Proof.
  destruct (update_is_atomic Examples.key_encoder Examples.nonempty_schema
              Examples.h_search 0%nat
              (Examples.algorithm "mc_barostat" "barostat" [VNode 1%nat; VNode 2%nat])
              (replace (_json_attrs (Examples.algorithm "mc_barostat" "barostat"
                                       [VNode 1%nat; VNode 2%nat])) "key" (VStr ""))
              eq_refl) as (_ & Hraise & _).
  exact (Hraise (CRIPTNodeSchemaError "key") eq_refl).
Defined.



End RecordFacts.

(** ** Further properties: [remove_child] *)

Module RemoveChildFacts.
Import Core Graph Accessors.

#[local] Arguments Nat.ltb : simpl never.
#[local] Arguments Nat.leb : simpl never.

Lemma references_app (a b : JsonAttributes) :
  references (a ++ b) = references a ++ references b.
Proof. unfold references. apply flat_map_app. Qed.

Lemma not_child_of_nodes (child : addr) (l : list value) :
  child ∉ omap node_of l -> Forall (fun e => is_child e child = false) l.
Proof.
  intros Hn. apply Forall_forall. intros e He.
  destruct (is_child e child) eqn:E; [|done].
  exfalso. apply Hn. apply list_elem_of_omap. exists e. split; [done|].
  by apply CoreFacts.is_child_node_of.
Qed.

Lemma nodes_of_not_child (child : addr) (l : list value) :
  Forall (fun e => is_child e child = false) l -> child ∉ omap node_of l.
Proof.
  intros Hall Hin. apply list_elem_of_omap in Hin as (e & He & Hn).
  rewrite Forall_forall in Hall. specialize (Hall e He).
  apply CoreFacts.is_child_node_of in Hn. congruence.
Qed.

(** Fields that neither are nor contain the child are passed over. *)
Lemma remove_child_fields_skip (child : addr) (d pre rest : JsonAttributes) :
  child ∉ references pre ->
  forall new_attrs replaced,
    remove_child_fields child d (pre ++ rest) new_attrs replaced
    = remove_child_fields child d rest new_attrs replaced.
Proof.
  induction pre as [|[field v] pre IH]; intros Hn new_attrs replaced; [done|].
  change (references ((field, v) :: pre))
    with (omap node_of (as_list v) ++ references pre) in Hn.
  rewrite elem_of_app in Hn.
  assert (Hv : Forall (fun e => is_child e child = false) (as_list v))
    by (apply not_child_of_nodes; tauto).
  assert (Hr : child ∉ references pre) by tauto.
  assert (Hc : is_child v child = false).
  { destruct v; try done. cbn [as_list] in Hv. by apply Forall_cons_1 in Hv as [? _]. }
  cbn [app remove_child_fields]. rewrite Hc.
  destruct v; cbn [elements_of]; try (apply IH; exact Hr).
  - cbn [as_list] in Hv. rewrite CoreFacts.del_children_absent by exact Hv. by apply IH.
  - rewrite CoreFacts.del_children_absent; [by apply IH|].
    apply Forall_forall. intros e He. apply list_elem_of_fmap in He as ([k w] & -> & _). done.
Qed.

(** The scan keeps the fields of the record and their order. *)
Lemma remove_child_fields_names (child : addr) (d fields : JsonAttributes) :
  forall new_attrs replaced out replaced',
    remove_child_fields child d fields new_attrs replaced = Ok (out, replaced') ->
    map fst out = map fst new_attrs.
Proof.
  induction fields as [|[field v] fields IH]; intros new_attrs replaced out replaced' H.
  { cbn in H. by injection H as <- _. }
  cbn [remove_child_fields] in H. destruct (is_child v child).
  { destruct (getattr d field) as [x|]; [|done].
    apply IH in H. by rewrite H, RecordFacts.replace_names. }
  destruct v; cbn [elements_of] in H; try (by eapply IH).
  - destruct (del_children child l 0 l false) as [[[] nl]|e]; [|by eapply IH|done].
    injection H as <- _. apply RecordFacts.replace_names.
  - destruct (del_children _ _ _ _ _) as [[[] nl]|e]; [|by eapply IH|done].
    injection H as <- _. apply RecordFacts.replace_names.
Qed.

Section WithCollaborators.
Variable NodeEncoder_dumps : heap -> addr -> option string.
Variable _get_global_cached_api : result API.

Local Abbreviation validate := (validate NodeEncoder_dumps _get_global_cached_api).
Local Abbreviation remove_child := (remove_child NodeEncoder_dumps _get_global_cached_api).

(** X4.  When the first field that has to do with the child is a list
    that contains it once, [remove_child] takes that one element out,
    leaves every other element and every other field as it is (later
    fields keep the child if they hold it), and returns true, provided
    the shortened record validates.  If no later field holds the child
    either, asking again returns false and changes nothing. *)
Theorem remove_child_takes_one_list_element (h : heap) (self child : addr) (obj : BaseNode)
    (pre post : JsonAttributes) (field : string) (l1 l2 : list value) :
  h !! self = Some obj ->
  _json_attrs obj = pre ++ (field, VList (l1 ++ VNode child :: l2)) :: post ->
  is_key field pre = false ->
  child ∉ references pre ->
  child ∉ omap node_of l1 ->
  child ∉ omap node_of l2 ->
  let h' := set_json_attrs h self (pre ++ (field, VList (l1 ++ l2)) :: post) in
  validate h' self = Ok tt ->
  remove_child self child h = (Ok true, h') /\
  (child ∉ references post -> remove_child self child h' = (Ok false, h')).
Proof.
  intros H Hattrs Hkey Hpre Hl1 Hl2 h' Hv.
  assert (Hscan : remove_child_fields child (JsonAttributes_defaults (cls obj))
                    (_json_attrs obj) (_json_attrs obj) false
                  = Ok (pre ++ (field, VList (l1 ++ l2)) :: post, true)).
  { rewrite Hattrs at 1. rewrite remove_child_fields_skip by exact Hpre.
    cbn [remove_child_fields is_child elements_of].
    rewrite CoreFacts.del_children_once by (by apply not_child_of_nodes).
    rewrite Hattrs. by rewrite RecordFacts.replace_middle. }
  split.
  - unfold Core.remove_child. rewrite H, Hscan.
    by rewrite (CoreFacts.update_commits _ _ h self obj _ H Hv).
  - intros Hpost. unfold Core.remove_child.
    unfold h'. rewrite (CoreFacts.set_json_attrs_lookup _ _ _ _ H). cbn [cls _json_attrs].
    rewrite CoreFacts.remove_child_fields_absent; [done|].
    rewrite references_app.
    change (references ((field, VList (l1 ++ l2)) :: post))
      with (omap node_of (l1 ++ l2) ++ references post).
    rewrite omap_app, !elem_of_app. tauto.
Qed.

(** X5.  When a scalar field is the child and no other field holds or
    contains it, [remove_child] puts the class default of that field in
    its place, leaves the other fields as they are, and returns true,
    provided the new record validates. *)
Theorem remove_child_resets_scalar_field (h : heap) (self child : addr) (obj : BaseNode)
    (pre post : JsonAttributes) (field : string) (d : value) :
  h !! self = Some obj ->
  _json_attrs obj = pre ++ (field, VNode child) :: post ->
  is_key field pre = false ->
  child ∉ references pre ->
  child ∉ references post ->
  getattr (JsonAttributes_defaults (cls obj)) field = Some d ->
  let h' := set_json_attrs h self (pre ++ (field, d) :: post) in
  validate h' self = Ok tt ->
  remove_child self child h = (Ok true, h').
Proof.
  intros H Hattrs Hkey Hpre Hpost Hd h' Hv.
  unfold Core.remove_child. rewrite H.
  rewrite Hattrs at 1. rewrite remove_child_fields_skip by exact Hpre.
  cbn [remove_child_fields is_child]. rewrite Nat.eqb_refl, Hd.
  rewrite CoreFacts.remove_child_fields_absent by exact Hpost.
  rewrite Hattrs, RecordFacts.replace_middle by exact Hkey.
  by rewrite (CoreFacts.update_commits _ _ h self obj _ H Hv).
Qed.

(** X6.  [remove_child] changes the store only when it returns true:
    when it returns false or raises (the child occurs twice in a list,
    the shortened record fails validation, ...), the store is the one
    from before the call.  Whatever the outcome, the other nodes are as
    before, and the receiver keeps its class and the names and order of
    its fields. *)
Theorem remove_child_frame (h : heap) (self child : addr) :
  let out := remove_child self child h in
  (fst out <> Ok true -> snd out = h) /\
  length (snd out) = length h /\
  (forall a, a <> self -> snd out !! a = h !! a) /\
  (forall obj obj', h !! self = Some obj -> snd out !! self = Some obj' ->
                    cls obj' = cls obj /\
                    map fst (_json_attrs obj') = map fst (_json_attrs obj)).
Proof.
  intros out. unfold out, Core.remove_child.
  destruct (h !! self) as [obj|] eqn:H.
  2:{ cbn [fst snd]. repeat split; done. }
  destruct (remove_child_fields _ _ _ _ _) as [[new_attrs []]|e] eqn:Hscan; cbn [fst snd].
  2,3: (split; [done|]; split; [done|]; split; [done|];
        intros o o' Ho Ho'; injection Ho as <-; rewrite H in Ho'; by injection Ho' as <-).
  apply remove_child_fields_names in Hscan.
  destruct (CoreFacts.update_old_or_new NodeEncoder_dumps _get_global_cached_api
              h self new_attrs) as [Hold|[Hok Hnew]].
  - destruct (Core._update_json_attrs_if_valid _ _ _ _ _) as [[[]|e] h1]; cbn [snd] in Hold;
      subst h1; cbn [fst snd];
      (split; [done|]; split; [done|]; split; [done|];
       intros o o' Ho Ho'; injection Ho as <-; rewrite H in Ho'; by injection Ho' as <-).
  - destruct (Core._update_json_attrs_if_valid _ _ _ _ _) as [[[]|e] h1];
      cbn [fst snd] in Hok, Hnew; [|discriminate]. subst h1. cbn [fst snd].
    split; [done|]. split; [apply CoreFacts.set_json_attrs_length|].
    split; [intros a Ha; by apply CoreFacts.set_json_attrs_other|].
    intros o o' Ho Ho'. rewrite (CoreFacts.set_json_attrs_lookup _ _ _ _ H) in Ho'.
    injection Ho' as <-. injection Ho as <-. done.
Qed.

End WithCollaborators.

(** [a.remove_child(p2)] on the store of [test_local_search], then
    once more. *)
Lemma remove_child_takes_one_list_element_witness :
  exists h',
    remove_child Examples.key_encoder Examples.any_schema 0%nat 2%nat Examples.h_search
    = (Ok true, h') /\
    get_field "parameter" 0%nat h' = Some (VList [VNode 1%nat]) /\
    remove_child Examples.key_encoder Examples.any_schema 0%nat 2%nat h' = (Ok false, h').
Proof.
  destruct (remove_child_takes_one_list_element Examples.key_encoder Examples.any_schema
              Examples.h_search 0%nat 2%nat
              (Examples.algorithm "mc_barostat" "barostat" [VNode 1%nat; VNode 2%nat])
              [("node", VList [VStr "Algorithm"]); ("key", VStr "mc_barostat");
               ("type", VStr "barostat")]
              [("citation", VList [])] "parameter" [VNode 1%nat] [])
    as [Hfirst Hsecond]; try reflexivity.
  - cbn. apply not_elem_of_nil.
  - cbn. intros Hin. apply list_elem_of_singleton in Hin. discriminate.
  - cbn. apply not_elem_of_nil.
  - eexists. split; [exact Hfirst|]. split; [reflexivity|].
    apply Hsecond. cbn. apply not_elem_of_nil.
Defined.

(** [c.remove_child(software)]: the field goes back to [None]. *)
Lemma remove_child_resets_scalar_field_witness :
  exists h',
    remove_child notes_encoder Examples.any_schema 0%nat 1%nat h_configuration = (Ok true, h') /\
    get_field "software" 0%nat h' = Some VNone.
Proof.
  eexists. split.
  - apply (remove_child_resets_scalar_field notes_encoder Examples.any_schema
             h_configuration 0%nat 1%nat _
             [("node", VList [VStr "SoftwareConfiguration"])]
             [("algorithms", VList []); ("notes", VStr "first run"); ("citation", VList [])]
             "software" VNone eq_refl eq_refl eq_refl); try reflexivity.
    + cbn. apply not_elem_of_nil.
    + cbn. apply not_elem_of_nil.
  - reflexivity.
Defined.

(** The child twice in one list: [IndexError], and the store is as it
    was. *)
Lemma remove_child_frame_witness :
  fst (remove_child Examples.key_encoder Examples.any_schema 0%nat 1%nat Examples.h_twice)
  = Raise IndexError /\
  snd (remove_child Examples.key_encoder Examples.any_schema 0%nat 1%nat Examples.h_twice)
  = Examples.h_twice.
Proof.
  split; [reflexivity|].
  apply (proj1 (remove_child_frame Examples.key_encoder Examples.any_schema
                  Examples.h_twice 0%nat 1%nat)).
  discriminate.
Defined.

End RemoveChildFacts.

(** ** Further properties: [_has_cycle] and [validate] *)

Module CycleFacts.
Import Core Graph Accessors.

Lemma forward_app (h : heap) (seg1 seg2 : list addr) :
  forward h seg1 -> forward h seg2 -> forward h (seg1 ++ seg2).
Proof.
  intros F1 F2 i n m Hi He.
  destruct (decide (i < length seg1)%nat) as [Hlt|Hge].
  - rewrite lookup_app_l in Hi by exact Hlt.
    destruct (F1 i n m Hi He) as (j & Hj & Hm).
    exists j. split; [exact Hj|]. by apply lookup_app_l_Some.
  - rewrite lookup_app_r in Hi by lia.
    destruct (F2 _ n m Hi He) as (j & Hj & Hm).
    exists (length seg1 + j)%nat. split; [lia|].
    rewrite lookup_app_r by lia. rewrite <- Hm. f_equal. lia.
Qed.

Lemma has_cycle_fields_clean (h : heap)
    (rec : addr -> list addr -> option (bool * list addr)) :
  (forall a H H', rec a H = Some (false, H') -> clean_walk h a H H') ->
  forall fields H H',
    has_cycle_fields rec fields H = Some (false, H') ->
    exists more,
      H' = H ++ more /\ (forall x, x ∈ more -> x ∉ H) /\ NoDup more /\ forward h more /\
      (forall c, c ∈ scalar_references fields -> c ∈ more).
Proof.
  intros Hrec fields. induction fields as [|[field v] fields IH]; intros H H' Hf.
  { cbn in Hf. injection Hf as <-. exists []. rewrite app_nil_r.
    split; [done|]. split; [intros x Hx; by apply elem_of_nil in Hx|].
    split; [constructor|]. split; [intros i n m Hi; done|].
    intros c Hc. by apply elem_of_nil in Hc. }
  destruct v; try (apply IH in Hf; exact Hf).
  cbn [has_cycle_fields] in Hf.
  destruct (rec a H) as [[[] H1]|] eqn:Hr; [done| |done].
  apply Hrec in Hr as (seg & -> & H0 & Hdis & Hnd & Hfw).
  apply IH in Hf as (more & -> & Hdis2 & Hnd2 & Hfw2 & Hall).
  exists (seg ++ more). split; [by rewrite app_assoc|].
  split.
  { intros x Hx HH. apply elem_of_app in Hx as [Hx|Hx]; [by apply (Hdis x)|].
    apply (Hdis2 x Hx). apply elem_of_app. by left. }
  split.
  { apply NoDup_app. split; [done|]. split; [|done].
    intros x Hx Hx2. apply (Hdis2 x Hx2). apply elem_of_app. by right. }
  split; [by apply forward_app|].
  intros c Hc. change (scalar_references ((field, VNode a) :: fields))
    with (a :: scalar_references fields) in Hc.
  apply elem_of_app. apply elem_of_cons in Hc as [->|Hc].
  - left. eapply list_elem_of_lookup_2. exact H0.
  - right. by apply Hall.
Qed.

Lemma has_cycle_clean (h : heap) (fuel : nat) :
  forall self H H', _has_cycle fuel h self H = Some (false, H') -> clean_walk h self H H'.
Proof.
  induction fuel as [|fuel IH]; intros self H H' Hc; [done|].
  cbn [_has_cycle] in Hc. case_bool_decide as Hin; [done|].
  destruct (h !! self) as [obj|] eqn:Hs.
  - apply (has_cycle_fields_clean h _ IH) in Hc as (more & -> & Hdis & Hnd & Hfw & Hall).
    exists (self :: more). split; [by rewrite <- app_assoc|]. split; [done|].
    assert (Hself : self ∉ more).
    { intros Hx. apply (Hdis self Hx). apply elem_of_app. right.
      by apply list_elem_of_singleton. }
    split.
    { intros x Hx HH. apply elem_of_cons in Hx as [->|Hx]; [done|].
      apply (Hdis x Hx). apply elem_of_app. by left. }
    split; [by apply NoDup_cons|].
    intros i n m Hi He. destruct i as [|i].
    + injection Hi as <-. destruct He as (obj' & Ho & Hm). rewrite Hs in Ho.
      injection Ho as <-. apply Hall in Hm. apply list_elem_of_lookup_1 in Hm as [j Hj].
      exists (S j). split; [lia|exact Hj].
    + destruct (Hfw i n m Hi He) as (j & Hj & Hm). exists (S j). split; [lia|exact Hm].
  - injection Hc as <-. exists [self]. split; [done|]. split; [done|].
    split; [intros x Hx; by apply list_elem_of_singleton in Hx as ->|].
    split; [apply NoDup_singleton|].
    intros i n m Hi (obj & Ho & _). destruct i; [|done].
    injection Hi as <-. rewrite Hs in Ho. discriminate.
Qed.

(** A walk that answers [False] has met no cycle of scalar references. *)
Lemma has_cycle_false_acyclic (h : heap) (self : addr) :
  has_cycle h self = false ->
  forall n, rtc (scalar_edge h) self n -> ~ tc (scalar_edge h) n n.
Proof.
  intros Hf. destruct (CoreFacts.has_cycle_fuel h self) as [H' Hc]. rewrite Hf in Hc.
  apply has_cycle_clean in Hc as (seg & _ & H0 & _ & Hnd & Hfw).
  assert (Hreach : forall n, rtc (scalar_edge h) self n -> exists i, seg !! i = Some n).
  { apply rtc_ind_r; [by eexists|].
    intros y z _ Hyz [i Hi]. destruct (Hfw i y z Hi Hyz) as (j & _ & Hj). by eexists. }
  assert (Hlater : forall n m, tc (scalar_edge h) n m ->
                   forall i, seg !! i = Some n -> exists j, (i < j)%nat /\ seg !! j = Some m).
  { induction 1 as [x y Hxy|x y z Hxy _ IH]; intros i Hi.
    - by apply (Hfw i x y).
    - destruct (Hfw i x y Hi Hxy) as (j & Hj & Hy).
      destruct (IH j Hy) as (k & Hk & Hz). exists k. split; [lia|exact Hz]. }
  intros n Hn Hcyc. destruct (Hreach n Hn) as [i Hi].
  destruct (Hlater n n Hcyc i Hi) as (j & Hj & Hjn).
  pose proof (NoDup_lookup seg i j n Hnd Hi Hjn). lia.
Qed.

Lemma has_cycle_fields_no_scalar (rec : addr -> list addr -> option (bool * list addr))
    (fields : JsonAttributes) (H : list addr) :
  scalar_references fields = [] -> has_cycle_fields rec fields H = Some (false, H).
Proof.
  induction fields as [|[field v] fields IH]; intros Hs; [done|].
  destruct v; try (apply IH; exact Hs). discriminate.
Qed.

Section WithCollaborators.
Variable NodeEncoder_dumps : heap -> addr -> option string.
Variable _get_global_cached_api : result API.

Local Abbreviation validate := (validate NodeEncoder_dumps _get_global_cached_api).

(** X7.  A cycle of scalar reference fields is always found: when the
    node reaches, through scalar reference fields, a node that lies on
    a cycle of such fields, [_has_cycle] answers true and [validate]
    does not accept the node, whatever the collaborators say. *)
Theorem validate_rejects_scalar_cycle (h : heap) (self n : addr) :
  rtc (scalar_edge h) self n -> tc (scalar_edge h) n n ->
  has_cycle h self = true /\ validate h self <> Ok tt.
Proof.
  intros Hr Hc.
  assert (Ht : has_cycle h self = true).
  { destruct (has_cycle h self) eqn:E; [done|].
    exfalso. by apply (has_cycle_false_acyclic h self E n). }
  split; [exact Ht|]. unfold Core.validate. rewrite Ht.
  destruct _get_global_cached_api as [api|e]; [|done]. cbn.
  destruct (json NodeEncoder_dumps h self) as [j|e]; [|done]. cbn.
  destruct (_is_node_schema_valid api j); done.
Qed.

(** X8.  References held in lists are not looked at: for a node none
    of whose scalar fields holds a node, [_has_cycle] answers false,
    whatever the lists of the node refer to, and [validate] passes as
    soon as the schema collaborator returns for the node's JSON, be it
    with true or with false. *)
Theorem validate_ignores_list_references (h : heap) (self : addr) (obj : BaseNode) :
  h !! self = Some obj ->
  scalar_references (_json_attrs obj) = [] ->
  has_cycle h self = false /\
  forall api node_json b,
    _get_global_cached_api = Ok api ->
    json NodeEncoder_dumps h self = Ok node_json ->
    _is_node_schema_valid api node_json = Ok b ->
    validate h self = Ok tt.
Proof.
  intros Hs Hno.
  assert (Hf : has_cycle h self = false).
  { unfold has_cycle. cbn [_has_cycle].
    rewrite bool_decide_eq_false_2 by apply not_elem_of_nil.
    rewrite Hs. by rewrite has_cycle_fields_no_scalar. }
  split; [exact Hf|]. intros api node_json b Hapi Hjson Hschema.
  unfold Core.validate. rewrite Hf, Hapi. cbn. rewrite Hjson. cbn. by rewrite Hschema.
Qed.

End WithCollaborators.

Lemma validate_rejects_scalar_cycle_witness :
  tc (scalar_edge h_scalar_cycle) 1%nat 1%nat /\
  validate Examples.key_encoder Examples.any_schema h_scalar_cycle 0%nat
  = Raise (CRIPTNodeCycleError 0%nat).
Proof.
  assert (H01 : scalar_edge h_scalar_cycle 0%nat 1%nat).
  { eexists. split; [reflexivity|]. cbn. by apply list_elem_of_singleton. }
  assert (H10 : scalar_edge h_scalar_cycle 1%nat 0%nat).
  { eexists. split; [reflexivity|]. cbn. by apply list_elem_of_singleton. }
  assert (Hc : tc (scalar_edge h_scalar_cycle) 1%nat 1%nat).
  { eapply tc_l; [exact H10|]. by apply tc_once. }
  split; [exact Hc|].
  destruct (validate_rejects_scalar_cycle Examples.key_encoder Examples.any_schema
              h_scalar_cycle 0%nat 1%nat (rtc_once _ _ H01) Hc) as [_ Hno].
  reflexivity.
Defined.

Lemma validate_ignores_list_references_witness :
  on_cycle Examples.h_list_cycle 0%nat /\
  has_cycle Examples.h_list_cycle 0%nat = false.
Proof.
  split; [exact CoreFacts.h_list_cycle_cyclic|].
  exact (proj1 (validate_ignores_list_references Examples.key_encoder Examples.any_schema
                  Examples.h_list_cycle 0%nat _ eq_refl eq_refl)).
Defined.

End CycleFacts.

(** ** Further properties: [find_children] *)

Module MoreSearchFacts.
Import Core Graph Criteria.

#[local] Arguments Nat.ltb : simpl never.
#[local] Arguments Nat.leb : simpl never.

(** *** A missing field *)

Lemma or_loop_no_node (fc : addr -> list (string * value) -> option (list addr))
    (attr_key : list value) (v : value) :
  existsb is_node attr_key = false -> or_loop fc attr_key v = Some 0%nat.
Proof.
  induction attr_key as [|e attr_key IH]; [done|].
  cbn [existsb]. intros H. apply orb_false_iff in H as [He Hrest].
  destruct e; try discriminate; by apply IH.
Qed.

Lemma count_values_no_node (fc : addr -> list (string * value) -> option (list addr))
    (attr_key : list value) :
  existsb is_node attr_key = false ->
  forall vs acc,
    exists j, count_values fc attr_key vs acc = Some (acc + j)%nat /\ (j <= length vs)%nat /\
              (j = length vs <-> forallb (fun v => py_in v attr_key) vs = true).
Proof.
  intros Hno. induction vs as [|v vs IH]; intros acc.
  { exists 0%nat. cbn. split; [f_equal; lia|]. split; [lia|tauto]. }
  cbn [count_values]. rewrite or_loop_no_node by exact Hno. cbn [forallb]. simpl length.
  destruct (py_in v attr_key); cbn [andb].
  - destruct (IH (S acc + 0)%nat) as (j & -> & Hj & Hiff). exists (S j).
    split; [f_equal; lia|]. split; [lia|]. rewrite <- Hiff. lia.
  - destruct (IH (acc + 0)%nat) as (j & -> & Hj & Hiff). exists j.
    split; [f_equal; lia|]. split; [lia|]. split; [lia|discriminate].
Qed.

Lemma py_in_none (l : list value) :
  forallb (fun x => py_in x [VNone]) l
  = forallb (fun x => match x with VNone => true | _ => false end) l.
Proof.
  induction l as [|x l IH]; [done|]. cbn [forallb]. rewrite IH. by destruct x.
Qed.

(** X9.  A field the node does not have reads as [None]: a criterion
    on such a key holds exactly when every requested value is [None]
    (in particular when the requested list is empty), whatever the rest
    of the store looks like. *)
Theorem is_attr_present_missing_field
    (fc : addr -> list (string * value) -> option (list addr))
    (h : heap) (n : addr) (obj : BaseNode) (key : string) (v : value) :
  h !! n = Some obj ->
  getattr (_json_attrs obj) key = None ->
  is_attr_present fc h n key v
  = Some (forallb (fun x => match x with VNone => true | _ => false end) (as_list v)).
Proof.
  intros Hn Hk. unfold is_attr_present, dict_get. rewrite Hn, Hk. cbn [default as_list].
  destruct (count_values_no_node fc [VNone] eq_refl (as_list v) 0%nat) as (j & -> & Hj & Hiff).
  f_equal. cbn [Nat.add].
  rewrite <- (py_in_none (as_list v)). destruct (forallb _ _).
  - apply Nat.eqb_eq. by apply Hiff.
  - apply Nat.eqb_neq. intros Heq. apply Hiff in Heq. discriminate.
Qed.

Lemma is_attr_present_missing_field_witness :
  is_attr_present (fun _ _ => None) Examples.h_search 1%nat "parameter" VNone = Some true /\
  is_attr_present (fun _ _ => None) Examples.h_search 1%nat "parameter" (VStr "x") = Some false.
Proof.
  split.
  - exact (is_attr_present_missing_field _ Examples.h_search 1%nat _ "parameter" VNone
             eq_refl eq_refl).
  - exact (is_attr_present_missing_field _ Examples.h_search 1%nat _ "parameter" (VStr "x")
             eq_refl eq_refl).
Defined.

(** *** The empty criteria *)

Lemma descend_nodes_listing (rec : addr -> list addr -> option (list addr * list addr)) :
  (forall a H f H', rec a H = Some (f, H') -> H' = H ++ f) ->
  forall cs found H f' H',
    Walk.descend_nodes rec cs found H = Some (f', H') ->
    exists F, f' = found ++ F /\ H' = H ++ F.
Proof.
  intros Hrec. induction cs as [|a cs IH]; intros found H f' H' Hd.
  { cbn in Hd. injection Hd as <- <-. exists []. by rewrite !app_nil_r. }
  cbn [Walk.descend_nodes] in Hd. destruct (rec a H) as [[f H1]|] eqn:Hr; [|done].
  apply Hrec in Hr as ->. apply IH in Hd as (F & -> & ->).
  exists (f ++ F). by rewrite !app_assoc.
Qed.

Lemma find_children_listing (h : heap) (fuel : nat) :
  forall self d H f H',
    find_children fuel h self [] d H = Some (f, H') -> H' = H ++ f.
Proof.
  induction fuel as [|fuel IH]; intros self d H f H' Hr; [done|].
  rewrite SearchFacts.find_children_S in Hr.
  destruct (h !! self) as [obj|]; [|injection Hr as <- <-; by rewrite app_nil_r].
  case_bool_decide; [injection Hr as <- <-; by rewrite app_nil_r|].
  cbn [count_attrs length Nat.eqb] in Hr. cbv zeta in Hr.
  destruct (d =? 0); [by injection Hr as <- <-|].
  rewrite SearchFacts.descend_fields_nodes in Hr.
  apply descend_nodes_listing in Hr as (F & -> & ->); [by rewrite <- app_assoc|].
  intros a H1 f1 H1' Ha. by eapply IH.
Qed.

(** X10.  With the empty criteria every node matches: the search
    returns the nodes it visits, in the order of the visits, each once;
    started with a negative depth on a node of the store and nothing
    handled, these are exactly the nodes reachable from the receiver. *)
Theorem find_children_empty_criteria (h : heap) (self : addr) (search_depth : Z)
    (handled_nodes : list addr) :
  exists visited,
    (forall fuel, (length h < fuel)%nat ->
       find_children fuel h self [] search_depth handled_nodes
       = Some (visited, handled_nodes ++ visited)) /\
    NoDup visited /\
    (search_depth < 0 -> handled_nodes = [] -> is_Some (h !! self) ->
     forall n, n ∈ visited <-> reachable h self n).
Proof.
  destruct (SearchFacts.find_children_total h self [] search_depth handled_nodes)
    as (found & H' & Hr & Hw).
  pose proof (Hr (S (length h)) ltac:(cbn; lia)) as Hr0.
  apply find_children_listing in Hr0. subst H'.
  exists found. split; [intros fuel Hfuel; apply Hr; cbn; lia|].
  split.
  - destruct Hw as (new & Heq & Hnd & _). apply app_inv_head in Heq. by subst new.
  - intros Hd -> Hs n. cbn [app] in Hw.
    by apply (SearchFacts.unbounded_walk_reachable h [] self search_depth found found).
Qed.

(** *** The order of the result *)

(** X11.  On a store with typed fields the result of a search is the
    list of the nodes it visits, in the order of the visits, with the
    nodes that do not satisfy the criteria left out; and a receiver
    that is visited is visited first, so that a matching receiver
    heads the result. *)
Theorem find_children_filters_visits (h : heap) (self : addr)
    (search_attr : list (string * value)) (search_depth : Z) (handled_nodes : list addr) :
  typed h ->
  exists visited,
    (forall fuel, (Measure.criteria_size search_attr + length h < fuel)%nat ->
       find_children fuel h self search_attr search_depth handled_nodes
       = Some (filter (fun n => satisfies h n search_attr = true) visited,
               handled_nodes ++ visited)) /\
    (is_Some (h !! self) -> self ∉ handled_nodes -> exists rest, visited = self :: rest).
Proof.
  intros Ht.
  destruct (SearchFacts.find_children_total h self search_attr search_depth handled_nodes)
    as (found & H' & Hr & Hw).
  pose proof Hw as (new & -> & _ & _ & _ & Hf & _).
  exists new. split; [by rewrite <- (Hf Ht)|].
  intros [obj Hs] Hn.
  pose proof (Hr _ (Nat.lt_succ_diag_r _)) as Hr0.
  rewrite SearchFacts.find_children_S, Hs in Hr0.
  rewrite bool_decide_eq_false_2 in Hr0 by exact Hn.
  destruct (count_attrs _ _ _ _ _) as [found_attr|]; [|done]. cbv zeta in Hr0.
  destruct (search_depth =? 0).
  - injection Hr0 as _ Heq. apply app_inv_head in Heq. subst new. by eexists.
  - apply (SearchFacts.descend_fields_inv h search_attr _ (search_depth - 1)) in Hr0
      as (F & _ & new2 & Heq & _).
    + rewrite <- app_assoc in Heq. apply app_inv_head in Heq. subst new. by eexists.
    + intros a H2 f2 H2' Ha. by eapply SearchFacts.find_children_inv.
Qed.

(** The cyclic store of [test_cycles], listed from the data node. *)
Lemma find_children_empty_criteria_witness :
  is_Some (Examples.h_list_cycle !! 0%nat) /\
  exists visited,
    find_children 3 Examples.h_list_cycle 0%nat [] (-1) [] = Some (visited, visited) /\
    visited = [0%nat; 1%nat] /\
    (forall n, n ∈ visited <-> reachable Examples.h_list_cycle 0%nat n).
Proof.
  assert (Hs : is_Some (Examples.h_list_cycle !! 0%nat)) by (by eexists).
  split; [exact Hs|].
  destruct (find_children_empty_criteria Examples.h_list_cycle 0%nat (-1) [])
    as (visited & Hr & _ & Hreach).
  exists visited. pose proof (Hr 3%nat ltac:(cbn; lia)) as Hr3.
  split; [exact Hr3|]. split.
  - vm_compute in Hr3. by injection Hr3 as <-.
  - apply Hreach; [lia|done|exact Hs].
Defined.

Lemma find_children_filters_visits_witness :
  typed Examples.h_search /\
  exists visited rest,
    find_children 9 Examples.h_search 0%nat Examples.crit_both (-1) []
    = Some (filter (fun n => satisfies Examples.h_search n Examples.crit_both = true) visited,
            visited) /\
    visited = 0%nat :: rest.
Proof.
  split; [exact SearchFacts.h_search_typed|].
  destruct (find_children_filters_visits Examples.h_search 0%nat Examples.crit_both (-1) []
              SearchFacts.h_search_typed) as (visited & Hr & Hfirst).
  destruct (Hfirst ltac:(by eexists) ltac:(apply not_elem_of_nil)) as [rest Hrest].
  exists visited, rest. split; [|exact Hrest].
  apply (Hr 9%nat). cbn. lia.
Defined.

End MoreSearchFacts.

(** ** Further properties: [CRIPTConnectionError] *)

Module MoreExceptionsFacts.
Import Exceptions.

(** X12.  The mask needs four characters: for a token of fewer than
    four characters nothing is uncovered at the front, and [token[-0:]]
    is the whole token, so that the error stores one ['*'] per
    character followed by the complete token. *)
Theorem short_token_is_kept (h : string) (tok : pystr) :
  (length tok < 4)%nat ->
  token (__init__ h tok) = replicate (length tok) "*"%char ++ tok.
Proof.
  intros Hlen. unfold __init__, slice_to, slice_from, stars. cbn [token].
  rewrite Z.div_small by lia.
  change (- 0 <? 0) with false. change (0 <? 0) with false. cbv iota.
  change (- 0) with 0. rewrite Z.min_l by lia.
  rewrite Z.mul_0_r, Z.sub_0_r, Nat2Z.id. reflexivity.
Qed.

Lemma short_token_is_kept_witness :
  token (__init__ "https://criptapp.org" (list_ascii_of_string "abc"))
  = list_ascii_of_string "***abc".
Proof.
  exact (short_token_is_kept "https://criptapp.org" (list_ascii_of_string "abc")
           ltac:(vm_compute; lia)).
Defined.

End MoreExceptionsFacts.

(** ** Further properties: [_from_json] *)

Module MoreFromJsonFacts.
Import Core.

Lemma bind_keywords_named (params : list (string * option value)) (var_keyword : bool)
    (json : list (string * value)) :
  forall r, bind_keywords params var_keyword json = Ok r ->
            forall k, is_key k (fst r) = true -> is_key k json = true.
Proof.
  induction json as [|[k1 v1] json IH]; intros r Hb k Hk.
  { cbn in Hb. injection Hb as <-. done. }
  cbn [bind_keywords] in Hb.
  assert (Hsplit : forall r0, bind_keywords params var_keyword json = Ok r0 ->
                     (r = ((k1, v1) :: fst r0, snd r0) \/ r = (fst r0, (k1, v1) :: snd r0)) ->
                     is_key k ((k1, v1) :: json) = true).
  { intros r0 Hr0 [-> | ->]; cbn [fst] in Hk; unfold is_key in *; cbn [existsb fst] in *.
    - apply orb_true_iff in Hk as [Hk|Hk]; [by rewrite Hk|].
      rewrite (IH r0 Hr0 k Hk). apply orb_true_r.
    - rewrite (IH r0 Hr0 k Hk). apply orb_true_r. }
  destruct (is_key k1 params).
  - destruct (bind_keywords params var_keyword json) as [r0|e] eqn:Hr0; [|done].
    cbn in Hb. injection Hb as <-. apply (Hsplit r0 eq_refl). by left.
  - destruct var_keyword; [|done].
    destruct (bind_keywords params true json) as [r0|e] eqn:Hr0; [|done].
    cbn in Hb. injection Hb as <-. apply (Hsplit r0 eq_refl). by right.
Qed.

Lemma bind_defaults_required (params : list (string * option value))
    (named : list (string * value)) (p : string) :
  (p, None) ∈ params -> is_key p named = false ->
  exists k, bind_defaults params named = Raise (TypeError k).
Proof.
  intros Hin Hk.
  assert (Hget : dict_get named p = None).
  { unfold dict_get. destruct (getattr named p) eqn:E; [|done].
    assert (is_key p named = true) by (apply RecordFacts.getattr_is_key; by eexists).
    congruence. }
  induction params as [|[q d] params IH]; [by apply elem_of_nil in Hin|].
  cbn [bind_defaults]. apply elem_of_cons in Hin as [Heq|Hin].
  - injection Heq as <- <-. rewrite Hget. by eexists.
  - destruct (IH Hin) as [k Hk']. rewrite Hk'.
    destruct (dict_get named q), d; cbn; by eexists.
Qed.

Lemma bind_defaults_raises (params : list (string * option value))
    (named : list (string * value)) (e : exn) :
  bind_defaults params named = Raise e -> exists p, e = TypeError p.
Proof.
  revert e. induction params as [|[q d] params IH]; intros e Hd; [done|].
  cbn [bind_defaults] in Hd.
  destruct (dict_get named q), d;
    try (destruct (bind_defaults params named) as [a0|e0]; [done|];
         cbn in Hd; injection Hd as <-; by apply IH).
  injection Hd as <-. by eexists.
Qed.

Lemma bind_keywords_raises (params : list (string * option value)) (var_keyword : bool)
    (json : list (string * value)) (e : exn) :
  bind_keywords params var_keyword json = Raise e -> exists k, e = TypeError k.
Proof.
  revert e. induction json as [|[k1 v1] json IH]; intros e Hb; [done|].
  cbn [bind_keywords] in Hb. destruct (is_key k1 params).
  - destruct (bind_keywords _ _ json) as [r0|e0]; [done|].
    cbn in Hb. injection Hb as <-. by apply IH.
  - destruct var_keyword; [|injection Hb as <-; by eexists].
    destruct (bind_keywords _ _ json) as [r0|e0]; [done|].
    cbn in Hb. injection Hb as <-. by apply IH.
Qed.

(** With [**kwargs] no keyword is refused, and a key that is no
    parameter ends up among the surplus. *)
Lemma bind_keywords_surplus (params : list (string * option value))
    (json : list (string * value)) (k : string) :
  is_key k json = true -> is_key k params = false ->
  exists named k' v' extra, bind_keywords params true json = Ok (named, (k', v') :: extra).
Proof.
  assert (Hok : forall js, exists r, bind_keywords params true js = Ok r).
  { clear. intros js. induction js as [|[k1 v1] js [r IH]]; [by eexists|].
    cbn [bind_keywords]. rewrite IH. destruct (is_key k1 params); cbn; by eexists. }
  induction json as [|[k1 v1] json IH]; intros Hk Hp; [done|].
  cbn [bind_keywords]. destruct (Hok json) as [[named extra] Hr]. rewrite Hr.
  destruct (is_key k1 params) eqn:Hk1; cbn.
  - assert (Hk' : is_key k json = true).
    { unfold is_key in Hk. cbn [existsb fst] in Hk.
      apply orb_true_iff in Hk as [Hk|Hk]; [|exact Hk].
      apply String.eqb_eq in Hk. subst k1. congruence. }
    destruct (IH Hk' Hp) as (named' & k' & v' & extra' & Hr').
    rewrite Hr in Hr'. injection Hr' as -> ->. by eexists _, _, _, _.
  - by eexists _, _, _, _.
Qed.

Section WithCollaborators.
Variable NodeEncoder_dumps : heap -> addr -> option string.
Variable _get_global_cached_api : result API.

Local Abbreviation _from_json := (_from_json NodeEncoder_dumps _get_global_cached_api).

(** X13.  Whatever the input and the outcome, [_from_json] leaves the
    nodes that exist as they are; when it returns, the node it returns
    is a new one of the class asked for. *)
Theorem from_json_frame (c : pyclass) (json : list (string * value)) (h : heap) :
  let out := _from_json c json h in
  (forall a, (a < length h)%nat -> snd out !! a = h !! a) /\
  (forall node, fst out = Ok node ->
                node = length h /\
                exists attrs, snd out !! node = Some {| cls := c; _json_attrs := attrs |}).
Proof.
  intros out. unfold out, Core._from_json.
  destruct (construct _ _ c json h) as [attrs0|e]; cbn [fst snd]; [|split; [done|done]].
  destruct (new_JsonAttributes c _) as [attrs|e]; cbn [fst snd].
  2:{ split; [|done]. intros a Ha. by apply lookup_app_l. }
  unfold Core._update_json_attrs_if_valid.
  rewrite list_lookup_middle by reflexivity.
  rewrite FromJsonFacts.set_json_attrs_last. cbn [cls _json_attrs].
  destruct (validate _ _ _ _) as [[]|e]; cbn [fst snd].
  - split; [intros a Ha; by apply lookup_app_l|].
    intros node Hn. injection Hn as <-. split; [done|].
    exists attrs. by apply list_lookup_middle.
  - unfold copy_copy. rewrite FromJsonFacts.set_json_attrs_last. cbn [cls _json_attrs].
    split; [intros a Ha; by apply lookup_app_l|done].
Qed.

(** X14.  An input that lacks a constructor parameter without default
    makes [_from_json] raise [TypeError]; no node is made. *)
Theorem from_json_missing_parameter (c : pyclass) (json : list (string * value)) (h : heap)
    (p : string) :
  (p, None) ∈ init_params c -> is_key p json = false ->
  exists k, _from_json c json h = (Raise (TypeError k), h).
Proof.
  intros Hp Hk. unfold Core._from_json, Core.construct.
  destruct (bind_keywords (init_params c) (init_var_keyword c) json) as [r|e] eqn:Hb.
  - assert (Hnamed : is_key p (fst r) = false).
    { destruct (is_key p (fst r)) eqn:E; [|done].
      apply (bind_keywords_named _ _ _ r Hb) in E. congruence. }
    destruct (bind_defaults_required (init_params c) (fst r) p Hp Hnamed) as [k Hd].
    exists k. cbn. by rewrite Hd.
  - destruct (bind_keywords_raises _ _ _ _ Hb) as [k ->]. by exists k.
Qed.

(** X15.  [SoftwareConfiguration] hands its surplus keywords on to
    [BaseNode.__init__], which takes none: an input with any key other
    than the four constructor parameters, such as the type tags under
    ["node"] that every serialized node carries, makes [_from_json]
    raise [TypeError]. *)
Theorem software_configuration_from_json_surplus_key (json : list (string * value))
    (h : heap) (k : string) :
  is_key k json = true ->
  is_key k (init_params SoftwareConfiguration.class) = false ->
  exists k', _from_json SoftwareConfiguration.class json h = (Raise (TypeError k'), h).
Proof.
  intros Hk Hp. unfold Core._from_json, Core.construct.
  destruct (bind_keywords_surplus _ json k Hk Hp) as (named & k' & v' & extra & Hb).
  change (init_var_keyword SoftwareConfiguration.class) with true. rewrite Hb. cbn [fst snd].
  cbn [mbind result_bind fst snd].
  destruct (bind_defaults (init_params SoftwareConfiguration.class) named)
    as [args|e] eqn:Hd.
  - exists k'. reflexivity.
  - destruct (bind_defaults_raises _ _ _ Hd) as [p ->]. by exists p.
Qed.

End WithCollaborators.

Lemma from_json_frame_witness :
  snd (_from_json Examples.key_encoder Examples.any_schema SoftwareConfiguration.class
         [("software", VNode 1%nat); ("notes", VStr "n")] Accessors.h_configuration)
  !! 0%nat = Accessors.h_configuration !! 0%nat.
Proof.
  apply (proj1 (from_json_frame Examples.key_encoder Examples.any_schema
                  SoftwareConfiguration.class
                  [("software", VNode 1%nat); ("notes", VStr "n")] Accessors.h_configuration)).
  cbn. lia.
Defined.

(** An input without ["software"]. *)
Lemma from_json_missing_parameter_witness :
  exists k,
    _from_json Examples.key_encoder Examples.any_schema SoftwareConfiguration.class
      [("notes", VStr "n")] [] = (Raise (TypeError k), []).
Proof.
  apply (from_json_missing_parameter Examples.key_encoder Examples.any_schema
           SoftwareConfiguration.class [("notes", VStr "n")] [] "software").
  - by left.
  - reflexivity.
Defined.

Lemma software_configuration_from_json_surplus_key_witness :
  exists k,
    _from_json Examples.key_encoder Examples.any_schema SoftwareConfiguration.class
      Examples.json_with_node [] = (Raise (TypeError k), []).
Proof.
  exact (software_configuration_from_json_surplus_key Examples.key_encoder Examples.any_schema
           Examples.json_with_node [] "node" eq_refl eq_refl).
Defined.

End MoreFromJsonFacts.
